(** * check_blocking.py: blocking calls inside [async def] bodies

    A shallow embedding of [using-asyncio-python/scripts/check_blocking.py]:
    the syntax tree as the [ast] module hands it to the script, the
    breadth-first [ast.walk], the rule registry [RULES], the identity-based
    exclusion set of [_nodes_inside_sync_context], [check_file], the reporting
    functions and [main], followed by the properties of the analysis. *)

From Stdlib Require Import ZArith Ascii String List Permutation Sorted Lia.
From stdpp Require Import base decidable numbers list sets gmap strings pretty.

Set Warnings "-register-all,-clear-no-such-hyp".

Open Scope Z_scope.
Open Scope string_scope.
Open Scope list_scope.

(** ** Syntax trees *)

(** What the script reads of a node whatever its class: the identity of the
    object ([id(node)], an integer) and its position.  Classes that carry no
    position in Python ([Load], [arguments], ...) never have theirs read:
    only nodes accepted by a matcher do, and those are calls
    ([matcher_call] below). *)
Record attrs : Type := Attrs {
  obj_id : Z;
  a_lineno : Z;
  a_col_offset : Z
}.

(** The node classes the script tells apart with [isinstance]; every other
    class is [Other].  Node-valued fields are kept in the order of the
    class's [_fields], which is the order [ast.iter_child_nodes] yields them
    in: [Call.func] before the arguments and keywords, [Attribute.value]
    before [Attribute.ctx]. *)
Inductive node : Type :=
| Call (a : attrs) (func : node) (args : list node)
| Name (a : attrs) (id : string) (ctx : node)
| Attribute (a : attrs) (value : node) (attr : string) (ctx : node)
| FunctionDef (a : attrs) (name : string) (fields : list node)
| AsyncFunctionDef (a : attrs) (name : string) (fields : list node)
| ClassDef (a : attrs) (name : string) (fields : list node)
| Other (a : attrs) (fields : list node).

Definition node_attrs (n : node) : attrs :=
  match n with
  | Call a _ _ | Name a _ _ | Attribute a _ _ _ | FunctionDef a _ _
  | AsyncFunctionDef a _ _ | ClassDef a _ _ | Other a _ => a
  end.

(** [id(node)], [node.lineno], [node.col_offset]. *)
Definition py_id (n : node) : Z := obj_id (node_attrs n).
Definition lineno (n : node) : Z := a_lineno (node_attrs n).
Definition col_offset (n : node) : Z := a_col_offset (node_attrs n).

(** [node.name] of a definition node (read on [AsyncFunctionDef] only). *)
Definition name_of (n : node) : string :=
  match n with
  | FunctionDef _ s _ | AsyncFunctionDef _ s _ | ClassDef _ s _ => s
  | _ => ""
  end.

(** [ast.iter_child_nodes]. *)
Definition iter_child_nodes (n : node) : list node :=
  match n with
  | Call _ f args => f :: args
  | Name _ _ c => [c]
  | Attribute _ v _ c => [v; c]
  | FunctionDef _ _ cs | AsyncFunctionDef _ _ cs | ClassDef _ _ cs
  | Other _ cs => cs
  end.

Definition is_call (n : node) : bool :=
  match n with Call _ _ _ => true | _ => false end.

(** [isinstance(node, ast.AsyncFunctionDef)]. *)
Definition is_async_def (n : node) : bool :=
  match n with AsyncFunctionDef _ _ _ => true | _ => false end.

(** [isinstance(node, (ast.FunctionDef, ast.ClassDef))]. *)
Definition is_sync_scope (n : node) : bool :=
  match n with FunctionDef _ _ _ | ClassDef _ _ _ => true | _ => false end.

(** Number of nodes of a tree: the bound on the iterations of [ast.walk]. *)
Fixpoint size (n : node) : nat :=
  S match n with
    | Call _ f args => size f + list_sum (map size args)
    | Name _ _ c => size c
    | Attribute _ v _ c => size v + size c
    | FunctionDef _ _ cs | AsyncFunctionDef _ _ cs | ClassDef _ _ cs
    | Other _ cs => list_sum (map size cs)
    end.

(** [ast.walk]: a queue seeded with the root; each turn pops the left end,
    appends the popped node's children on the right and yields it.  The loop
    runs once per node, so [size] turns exhaust the queue
    ([walk_queue_fuel], [walk_perm]). *)
Fixpoint walk_queue (fuel : nat) (todo : list node) : list node :=
  match fuel, todo with
  | S k, n :: todo' => n :: walk_queue k (todo' ++ iter_child_nodes n)
  | _, _ => []
  end.

Definition walk (n : node) : list node := walk_queue (size n) [n].

(** ** Rules *)

(** [_call_matches(node, *name_parts)]. *)
Definition _call_matches (n : node) (name_parts : list string) : bool :=
  match n with
  | Call _ func _ =>
      match name_parts, func with
      | [p0], Name _ i _ => String.eqb i p0
      | [p0; p1], Attribute _ obj a _ =>
          match obj with
          | Name _ i _ => String.eqb i p0 && String.eqb a p1
          | _ => false
          end
      | _, _ => false
      end
  | _ => false
  end.

Definition _is_sync_open (n : node) : bool := _call_matches n ["open"].

Definition _is_file_rw (n : node) : bool :=
  match n with
  | Call _ (Attribute _ _ a _) _ =>
      bool_decide (a ∈ ["read"; "write"; "readlines"])
  | _ => false
  end.

Record Rule : Type := mkRule {
  rule_id : string;
  description : string;
  fix_hint : string;
  matcher : node -> bool
}.

Definition ASYNC001 : Rule :=
  mkRule "ASYNC001" "requests.get() blocks the event loop"
    "Use aiohttp.ClientSession().get() or httpx.AsyncClient().get()"
    (fun n => _call_matches n ["requests"; "get"]).
Definition ASYNC002 : Rule :=
  mkRule "ASYNC002" "requests.post() blocks the event loop"
    "Use aiohttp.ClientSession().post() or httpx.AsyncClient().post()"
    (fun n => _call_matches n ["requests"; "post"]).
Definition ASYNC003 : Rule :=
  mkRule "ASYNC003" "requests.put() blocks the event loop"
    "Use aiohttp.ClientSession().put() or httpx.AsyncClient().put()"
    (fun n => _call_matches n ["requests"; "put"]).
Definition ASYNC004 : Rule :=
  mkRule "ASYNC004" "requests.delete() blocks the event loop"
    "Use aiohttp.ClientSession().delete() or httpx.AsyncClient().delete()"
    (fun n => _call_matches n ["requests"; "delete"]).
Definition ASYNC005 : Rule :=
  mkRule "ASYNC005" "time.sleep() blocks the event loop"
    "Use 'await asyncio.sleep(seconds)' instead"
    (fun n => _call_matches n ["time"; "sleep"]).
Definition ASYNC006 : Rule :=
  mkRule "ASYNC006" "open() is a synchronous file operation"
    "Use 'async with aiofiles.open(...)' from the aiofiles package"
    _is_sync_open.
Definition ASYNC007 : Rule :=
  mkRule "ASYNC007" "subprocess.run() blocks the event loop"
    "Use 'await asyncio.create_subprocess_exec()' or asyncio.create_subprocess_shell()"
    (fun n => _call_matches n ["subprocess"; "run"]).
Definition ASYNC008 : Rule :=
  mkRule "ASYNC008" "subprocess.call() blocks the event loop"
    "Use 'await asyncio.create_subprocess_exec()' instead"
    (fun n => _call_matches n ["subprocess"; "call"]).
Definition ASYNC009 : Rule :=
  mkRule "ASYNC009" ".read()/.write()/.readlines() on a synchronous file handle"
    "Open the file with aiofiles and use 'await file.read()' / 'await file.write()'"
    _is_file_rw.

Definition RULES : list Rule :=
  [ASYNC001; ASYNC002; ASYNC003; ASYNC004; ASYNC005; ASYNC006; ASYNC007;
   ASYNC008; ASYNC009].

(** ** Findings *)

Definition Path : Type := string.

Record Finding : Type := mkFinding {
  file : Path;
  line : Z;
  col : Z;
  async_func : string;
  rule : Rule
}.

(** [_collect_async_funcs]: the generator's items, in the order of the walk. *)
Definition _collect_async_funcs (tree : node) : list node :=
  filter (fun n => is_async_def n = true) (walk tree).

(** [_nodes_inside_sync_context]: the two nested loops, each [excluded.add]
    being an insertion into the set of identities. *)
Definition _nodes_inside_sync_context (func_node : node) : gset Z :=
  foldl (fun excluded n =>
           if is_sync_scope n
           then foldl (fun ex child => {[ py_id child ]} ∪ ex) excluded (walk n)
           else excluded)
        ∅ (walk func_node).

(** The engine of [check_file] (the loops after parsing).  The registry is
    the module-level list [RULES]; the loops only iterate over it, so they
    are written once over any registry and [check_file] runs them on
    [RULES]. *)
Section Engine.
Variable rules : list Rule.

(** [for rule in RULES: if rule.matcher(node): findings.append(...)]. *)
Definition findings_at (path : Path) (async_func node : node) : list Finding :=
  flat_map (fun r =>
              if matcher r node
              then [mkFinding path (lineno node) (col_offset node)
                              (name_of async_func) r]
              else [])
           rules.

(** The body of [for async_func in _collect_async_funcs(tree)]. *)
Definition scan_function (path : Path) (async_func : node) : list Finding :=
  let excluded := _nodes_inside_sync_context async_func in
  flat_map (fun node =>
              if bool_decide (py_id node ∈ excluded) then []
              else findings_at path async_func node)
           (walk async_func).

Definition scan_tree (path : Path) (tree : node) : list Finding :=
  flat_map (scan_function path) (_collect_async_funcs tree).
End Engine.

(** ** Console, exceptions and the outside world *)

(** The exceptions that can travel through the script; [OSError] and
    [SyntaxError] carry [str(exc)].  [ValueError], [RecursionError] and
    [MemoryError] are what [ast.parse] raises besides [SyntaxError]. *)
Inductive exn : Type :=
| OSError (msg : string)
| SyntaxError (msg : string)
| ValueError (msg : string)
| RecursionError (msg : string)
| MemoryError (msg : string)
| UnicodeDecodeError
| StopIteration
| SystemExit (code : Z).

Definition is_OSError (e : exn) : bool :=
  match e with OSError _ => true | _ => false end.
Definition is_SyntaxError (e : exn) : bool :=
  match e with SyntaxError _ => true | _ => false end.

(** [str(exc)] for the two exceptions the script formats. *)
Definition exn_str (e : exn) : string :=
  match e with OSError msg | SyntaxError msg => msg | _ => "" end.

(** What the process has printed so far, one entry per [print] call. *)
Record console : Type := Console {
  stdout : list string;
  stderr : list string
}.

Inductive result (A : Type) : Type :=
| Ok (a : A)
| Raised (e : exn).
Arguments Ok {A} a.
Arguments Raised {A} e.

(** A computation prints, and returns or raises. *)
Definition IO (A : Type) : Type := console -> result A * console.

Definition io_ret {A} (a : A) : IO A := fun c => (Ok a, c).
Definition io_bind {A B} (m : IO A) (k : A -> IO B) : IO B :=
  fun c => match m c with
           | (Ok a, c') => k a c'
           | (Raised e, c') => (Raised e, c')
           end.
Definition raise {A} (e : exn) : IO A := fun c => (Raised e, c).
(** [try: x = m  except E as exc: ...]: the exception is handed to the
    handler when [handles] accepts its class, and travels on otherwise. *)
Definition catch {A} (handles : exn -> bool) (m : IO A) : IO (exn + A) :=
  fun c => match m c with
           | (Ok a, c') => (Ok (inr a), c')
           | (Raised e, c') =>
               if handles e then (Ok (inl e), c') else (Raised e, c')
           end.
Definition print (s : string) : IO unit :=
  fun c => (Ok tt, Console (stdout c ++ [s]) (stderr c)).
Definition eprint (s : string) : IO unit :=
  fun c => (Ok tt, Console (stdout c) (stderr c ++ [s])).

Declare Scope io_scope.
Delimit Scope io_scope with io.
Notation "x <- m ;; k" := (io_bind m (fun x => k))
  (at level 20, m at level 99, k at level 200, only parsing) : io_scope.
Notation "m ;; k" := (io_bind m (fun _ => k))
  (at level 100, k at level 200, right associativity) : io_scope.
Open Scope io_scope.

(** [for x in xs: body(x)]. *)
Fixpoint for_each {A} (xs : list A) (body : A -> IO unit) : IO unit :=
  match xs with
  | [] => io_ret tt
  | x :: xs' => body x ;; for_each xs' body
  end.

(** [for x in xs: state = body(state, x)], for a loop that grows a list. *)
Fixpoint for_fold {A S} (xs : list A) (body : S -> A -> IO S) (s : S) : IO S :=
  match xs with
  | [] => io_ret s
  | x :: xs' => s' <- body s x ;; for_fold xs' body s'
  end.

(** [next(iterator)]. *)
Definition next {A} (items : list A) : IO A :=
  match items with
  | x :: _ => io_ret x
  | [] => raise StopIteration
  end.

Definition NL : string := String "010"%char EmptyString.

(** ** Reporting helpers *)

(** [collections.Counter(keys)]: key to count, keys in first-seen order. *)
Fixpoint counter_add (k : string) (c : list (string * nat)) : list (string * nat) :=
  match c with
  | [] => [(k, 1%nat)]
  | (k', n) :: c' =>
      if String.eqb k' k then (k', S n) :: c' else (k', n) :: counter_add k c'
  end.

Definition Counter (keys : list string) : list (string * nat) :=
  foldl (fun c k => counter_add k c) [] keys.

(** [<] on [(str, int)] tuples.  Strings are compared code point by code
    point, which on UTF-8 text is the order of the bytes. *)
Definition item_ltb (x y : string * nat) : bool :=
  match String.compare (fst x) (fst y) with
  | Lt => true
  | Eq => Nat.ltb (snd x) (snd y)
  | Gt => false
  end.

(** [sorted(counter.items())]: a stable sort with [<]. *)
Fixpoint item_insert (x : string * nat) (l : list (string * nat)) : list (string * nat) :=
  match l with
  | [] => [x]
  | y :: l' => if item_ltb x y then x :: y :: l' else y :: item_insert x l'
  end.

Definition sorted_items (l : list (string * nat)) : list (string * nat) :=
  foldl (fun acc x => item_insert x acc) [] l.

(** [f"{count:3d}"]: right-aligned in a field of width 3. *)
Definition format_3d (count : nat) : string :=
  let digits := pretty count in
  String.concat "" (replicate (3 - String.length digits) " ") +:+ digits.

(** ** The script's functions over the file system and the parser *)

(** The [errors] argument of a decoder. *)
Inductive errors_mode : Type := Strict | Replace.

(** How [ast.parse] fails: [SyntaxError] (with its subclasses) on malformed
    source; [ValueError] on source that holds a null byte (before Python
    3.12), [RecursionError] on source nested too deeply for the parser,
    [MemoryError] on source too large. *)
Inductive parse_error : Type :=
| PSyntaxError (msg : string)
| PValueError (msg : string)
| PRecursionError (msg : string)
| PMemoryError (msg : string).

Definition parse_exn (err : parse_error) : exn :=
  match err with
  | PSyntaxError msg => SyntaxError msg
  | PValueError msg => ValueError msg
  | PRecursionError msg => RecursionError msg
  | PMemoryError msg => MemoryError msg
  end.

Definition is_syntax_error (err : parse_error) : bool :=
  match err with PSyntaxError _ => true | _ => false end.

(** The interpreter's side, which the script calls and does not define:
    the file system behind [pathlib], the UTF-8 decoder and [ast.parse]. *)
Record Runtime : Type := mkRuntime {
  (** [Path.is_file()], [Path.is_dir()], [Path.suffix]. *)
  is_file : Path -> bool;
  is_dir : Path -> bool;
  suffix : Path -> string;
  (** [Path.rglob(pattern)] and [sorted] on paths. *)
  rglob : Path -> string -> list Path;
  sorted_paths : list Path -> list Path;
  (** Opening and reading a file: the message of the [OSError], or the
      bytes. *)
  read_bytes : Path -> string + list Byte.byte;
  (** Decoding UTF-8 text under an [errors] mode; [None] is
      [UnicodeDecodeError]. *)
  decode_utf8 : errors_mode -> list Byte.byte -> option string;
  (** With [errors="replace"] every byte sequence decodes. *)
  decode_replace_total : forall data, is_Some (decode_utf8 Replace data);
  (** [ast.parse(source, filename)]: the exception it raises, or the
      tree. *)
  ast_parse : string -> string -> parse_error + node
}.

(** [args] as [parser.parse_args()] returns it. *)
Record Namespace : Type := mkNamespace {
  paths : list Path;
  exit_zero : bool;
  summary : bool
}.

Section Script.
Variable rt : Runtime.

(** [path.read_text(encoding="utf-8", errors="replace")]. *)
Definition read_text (path : Path) : IO string :=
  match read_bytes rt path with
  | inl msg => raise (OSError msg)
  | inr data =>
      match decode_utf8 rt Replace data with
      | Some source => io_ret source
      | None => raise UnicodeDecodeError
      end
  end.

(** [ast.parse(source, filename=str(path))]. *)
Definition parse (source : string) (path : Path) : IO node :=
  match ast_parse rt source path with
  | inl err => raise (parse_exn err)
  | inr tree => io_ret tree
  end.

Definition check_file (path : Path) : IO (list Finding) :=
  read <- catch is_OSError (read_text path) ;;
  match read with
  | inl exc =>
      eprint ("ERROR: Cannot read " +:+ path +:+ ": " +:+ exn_str exc) ;;
      io_ret []
  | inr source =>
      parsed <- catch is_SyntaxError (parse source path) ;;
      match parsed with
      | inl exc =>
          eprint ("ERROR: Syntax error in " +:+ path +:+ ": " +:+ exn_str exc) ;;
          io_ret []
      | inr tree => io_ret (scan_tree RULES path tree)
      end
  end.

(** The generator prints its warning or yields; its items are collected
    before the caller's loop body runs, which prints nothing in between. *)
Definition iter_python_files (path : Path) : IO (list Path) :=
  if is_file rt path then
    if String.eqb (suffix rt path) ".py" then io_ret [path] else io_ret []
  else if is_dir rt path then
    io_ret (sorted_paths rt (rglob rt path "*.py"))
  else
    eprint ("WARNING: " +:+ path +:+ " is not a file or directory — skipping.") ;;
    io_ret [].

Definition diagnostic_line (f : Finding) : string :=
  file f +:+ ":" +:+ pretty (line f) +:+ ":" +:+ pretty (col f) +:+ ": ["
  +:+ rule_id (rule f) +:+ "] In 'async def " +:+ async_func f +:+ "': "
  +:+ description (rule f).

Definition fix_line (f : Finding) : string := "  Fix: " +:+ fix_hint (rule f).

Definition print_findings (findings : list Finding) : IO unit :=
  for_each findings (fun f => print (diagnostic_line f) ;; print (fix_line f)).

Definition print_summary (all_findings : list Finding) : IO unit :=
  match all_findings with
  | [] => print (NL +:+ "Summary: No blocking call issues found.")
  | _ :: _ =>
      let by_rule := Counter (map (fun f => rule_id (rule f)) all_findings) in
      let by_file := Counter (map file all_findings) in
      print (NL +:+ "--- Summary ---") ;;
      print ("Total issues: " +:+ pretty (length all_findings)) ;;
      print (NL +:+ "By rule:") ;;
      for_each (sorted_items by_rule) (fun item =>
        r <- next (filter (fun r => rule_id r = fst item) RULES) ;;
        print ("  " +:+ fst item +:+ ": " +:+ pretty (snd item) +:+ "x  ("
               +:+ description r +:+ ")")) ;;
      print (NL +:+ "By file:") ;;
      for_each (sorted_items by_file) (fun item =>
        print ("  " +:+ format_3d (snd item) +:+ "  " +:+ fst item))
  end.

(** The body of [for py_file in iter_python_files(raw_path)]. *)
Definition analyse_file (all_findings : list Finding) (py_file : Path)
  : IO (list Finding) :=
  findings <- check_file py_file ;;
  print_findings findings ;;
  io_ret (all_findings ++ findings).

(** The two nested loops of [main]. *)
Definition analyse_paths (raw_paths : list Path) : IO (list Finding) :=
  for_fold raw_paths
    (fun all_findings raw_path =>
       py_files <- iter_python_files raw_path ;;
       for_fold py_files analyse_file all_findings)
    [].

Definition main (args : Namespace) : IO unit :=
  all_findings <- analyse_paths (paths args) ;;
  (if summary args then print_summary all_findings else io_ret tt) ;;
  (if bool_decide (all_findings = [])
   then print "No blocking call issues detected." else io_ret tt) ;;
  if negb (bool_decide (all_findings = [])) && negb (exit_zero args)
  then raise (SystemExit 1)
  else io_ret tt.

(** The status the interpreter exits with: 0 when [main] returns, the
    argument of [sys.exit], 1 after an uncaught exception. *)
Definition exit_status (r : result unit) : Z :=
  match r with
  | Ok _ => 0
  | Raised (SystemExit code) => code
  | Raised _ => 1
  end.

(** A run of the script from an empty console: the exit status and what
    the script has printed.  After an uncaught exception the interpreter
    writes a traceback on standard error; the console holds the lines of the
    script only. *)
Definition run (args : Namespace) : Z * console :=
  let (r, c) := main args (Console [] []) in (exit_status r, c).
End Script.

(** ** Lexical structure of a tree *)

(** The nodes of a tree in pre-order: a node is syntactically contained in
    [n] when it occurs in [subtree n]. *)
Fixpoint subtree (n : node) : list node :=
  n :: match n with
       | Call _ f args => subtree f ++ flat_map subtree args
       | Name _ _ c => subtree c
       | Attribute _ v _ c => subtree v ++ subtree c
       | FunctionDef _ _ cs | AsyncFunctionDef _ _ cs | ClassDef _ _ cs
       | Other _ cs => flat_map subtree cs
       end.

(** The nodes of [n]'s subtree that no synchronous function or class
    definition separates from [n]; nested [async def]s and their bodies are
    among them. *)
Fixpoint own_nodes (n : node) : list node :=
  match n with
  | FunctionDef _ _ _ | ClassDef _ _ _ => []
  | Call _ f args => n :: own_nodes f ++ flat_map own_nodes args
  | Name _ _ c => n :: own_nodes c
  | Attribute _ v _ c => n :: own_nodes v ++ own_nodes c
  | AsyncFunctionDef _ _ cs | Other _ cs => n :: flat_map own_nodes cs
  end.

(** The nodes of [n]'s subtree inside a synchronous function or class
    definition (the definition nodes included). *)
Fixpoint sync_nodes (n : node) : list node :=
  match n with
  | FunctionDef _ _ _ | ClassDef _ _ _ => subtree n
  | Call _ f args => sync_nodes f ++ flat_map sync_nodes args
  | Name _ _ c => sync_nodes c
  | Attribute _ v _ c => sync_nodes v ++ sync_nodes c
  | AsyncFunctionDef _ _ cs | Other _ cs => flat_map sync_nodes cs
  end.

(** The asynchronous function definitions of a file. *)
Definition async_defs (tree : node) : list node :=
  filter (fun n => is_async_def n = true) (subtree tree).

(** Call nodes are objects of their own: a call shares its identity with no
    other node of the tree.  (The parser does share some objects, the
    [Load] and [Store] contexts, between positions; those are not calls.) *)
Definition call_ids (l : list node) : list Z :=
  py_id <$> filter (fun n => is_call n = true) l.

Definition calls_distinct (l : list node) : Prop :=
  NoDup (call_ids l) /\
  Forall (fun m => is_call m = false -> py_id m ∉ call_ids l) l.

Definition well_identified (tree : node) : Prop :=
  calls_distinct (subtree tree).

Global Instance calls_distinct_dec l : Decision (calls_distinct l).
Proof. unfold calls_distinct. apply _. Defined.

(** One pass of the engine seen from the tree: the rules that fire on the
    nodes of [async_func]'s own lexical level. *)
Definition expected_function (rules : list Rule) (path : Path) (async_func : node)
  : list Finding :=
  flat_map (findings_at rules path async_func) (own_nodes async_func).

Definition expected_tree (rules : list Rule) (path : Path) (tree : node)
  : list Finding :=
  flat_map (expected_function rules path) (async_defs tree).

(** The (async function, node, rule) triples behind the findings. *)
Definition matched_triples (rules : list Rule) (tree : node)
  : list (node * node * Rule) :=
  flat_map (fun f =>
    flat_map (fun n =>
      map (fun r => (f, n, r)) (filter (fun r => matcher r n = true) rules))
      (own_nodes f))
    (async_defs tree).

(** ** Sample files *)

Module Samples.
(** Builders for the classes the script does not tell apart. *)
Definition Load : node := Other (Attrs 1 0 0) [].
Definition arguments (i : Z) : node := Other (Attrs i 0 0) [].
Definition Module_ (i : Z) (body : list node) : node := Other (Attrs i 0 0) body.
Definition Expr (i l c : Z) (v : node) : node := Other (Attrs i l c) [v].
Definition Constant (i l c : Z) : node := Other (Attrs i l c) [].
Definition If (i l c : Z) (test : node) (body : list node) : node :=
  Other (Attrs i l c) (test :: body).

(** [open("f")] at line [l], column [c]; identities [i], [i+1], [i+2]. *)
Definition open_call (i l c : Z) : node :=
  Call (Attrs i l c) (Name (Attrs (i + 1) l c) "open" Load)
       [Constant (i + 2) l (c + 5)].

(** [time.sleep(1)] at line [l], column [c]; identities [i] to [i+3]. *)
Definition sleep_call (i l c : Z) : node :=
  Call (Attrs i l c)
       (Attribute (Attrs (i + 1) l c) (Name (Attrs (i + 2) l c) "time" Load)
                  "sleep" Load)
       [Constant (i + 3) l (c + 11)].

(** <<
    async def outer():
        def helper():
            open("f")
        helper()
    >> *)
Definition helper_tree : node :=
  Module_ 10
    [AsyncFunctionDef (Attrs 11 1 0) "outer"
       [arguments 12;
        FunctionDef (Attrs 13 2 4) "helper"
          [arguments 14; Expr 15 3 8 (open_call 16 3 8)];
        Expr 19 4 4 (Call (Attrs 20 4 4) (Name (Attrs 21 4 4) "helper" Load) [])]].

(** <<
    async def outer():
        async def inner():
            open("f")
    >> *)
Definition nested_tree : node :=
  Module_ 30
    [AsyncFunctionDef (Attrs 31 1 0) "outer"
       [arguments 32;
        AsyncFunctionDef (Attrs 33 2 4) "inner"
          [arguments 34; Expr 35 3 8 (open_call 36 3 8)]]].

Definition nested_outer : node :=
  AsyncFunctionDef (Attrs 31 1 0) "outer"
    [arguments 32;
     AsyncFunctionDef (Attrs 33 2 4) "inner"
       [arguments 34; Expr 35 3 8 (open_call 36 3 8)]].

Definition nested_inner : node :=
  AsyncFunctionDef (Attrs 33 2 4) "inner"
    [arguments 34; Expr 35 3 8 (open_call 36 3 8)].

(** <<
    async def f():
        if x:
            time.sleep(1)
        time.sleep(2)
    >> *)
Definition branch_tree : node :=
  Module_ 40
    [AsyncFunctionDef (Attrs 41 1 0) "f"
       [arguments 42;
        If 43 2 4 (Name (Attrs 44 2 7) "x" Load)
           [Expr 45 3 8 (sleep_call 46 3 8)];
        Expr 50 4 4 (sleep_call 51 4 4)]].

(** <<
    def g():
        time.sleep(1)
    >> *)
Definition sync_tree : node :=
  Module_ 60
    [FunctionDef (Attrs 61 1 0) "g"
       [arguments 62; Expr 63 2 4 (sleep_call 64 2 4)]].

(** <<
    async def load(session):
        session.read()
    >> *)
Definition read_call : node :=
  Call (Attrs 74 2 4)
       (Attribute (Attrs 75 2 4) (Name (Attrs 76 2 4) "session" Load)
                  "read" Load) [].

Definition read_tree : node :=
  Module_ 70
    [AsyncFunctionDef (Attrs 71 1 0) "load"
       [arguments 72; Expr 73 2 4 read_call]].

(** A registry in which two rules accept the same call. *)
Definition OPEN_ANY : Rule :=
  mkRule "LOCAL001" "open() needs review" "Review the call"
         (fun n => _call_matches n ["open"]).
Definition two_rules : list Rule := [ASYNC006; OPEN_ANY].

(** A file system with the sample files, a directory [pkg], files that
    cannot be read, a file that does not parse and a file with a null byte;
    a decoder that knows ASCII and, when replacing, writes [?] for every
    other byte; a parser that knows the sample sources by their first line
    and raises [ValueError] on a null byte, as [ast.parse] does before
    Python 3.12. *)
Definition source_of (p : Path) : string :=
  "# " +:+ p +:+ NL.

Definition sample_files : list (Path * node) :=
  [("helper.py", helper_tree); ("nested.py", nested_tree);
   ("branch.py", branch_tree); ("sync.py", sync_tree);
   ("read.py", read_tree);
   ("pkg/branch.py", branch_tree); ("pkg/read.py", read_tree)].

Definition bytes_of (s : string) : list Byte.byte := list_byte_of_string s.

Definition ascii_only (data : list Byte.byte) : bool :=
  forallb (fun b => (Byte.to_N b <? 128)%N) data.

Definition sample_decode (mode : errors_mode) (data : list Byte.byte)
  : option string :=
  match mode with
  | Replace =>
      Some (string_of_list_byte
              (map (fun b => if (Byte.to_N b <? 128)%N then b else Byte.x3f)
                   data))
  | Strict =>
      if ascii_only data then Some (string_of_list_byte data) else None
  end.

Definition sample_decode_total (data : list Byte.byte)
  : is_Some (sample_decode Replace data) :=
  ex_intro _ _ eq_refl.

Definition sample_read (p : Path) : string + list Byte.byte :=
  if bool_decide (p = "locked.py") then inl "[Errno 13] Permission denied: 'locked.py'"
  else if bool_decide (p = "pkg/locked.py")
       then inl "[Errno 13] Permission denied: 'pkg/locked.py'"
  else if bool_decide (p = "nul.py") then inr [Byte.x00]
  else if bool_decide (p = "broken.py") then inr (bytes_of ("def (:" +:+ NL))
  else if bool_decide (p = "latin1.py")
       then inr (Byte.x23 :: Byte.x20 :: Byte.xe9 :: Byte.xff :: bytes_of NL)
  else if bool_decide (p ∈ map fst sample_files) then inr (bytes_of (source_of p))
  else inl ("[Errno 2] No such file or directory: '" +:+ p +:+ "'").

Definition sample_parse (source filename : string) : parse_error + node :=
  match filter (fun e => source_of (fst e) = source) sample_files with
  | e :: _ => inr (snd e)
  | [] =>
      if bool_decide (source = "# ??" +:+ NL) then inr (Module_ 80 [])
      else if bool_decide (source = String "000"%char EmptyString)
      then inl (PValueError "source code string cannot contain null bytes")
      else inl (PSyntaxError ("invalid syntax (" +:+ filename +:+ ", line 1)"))
  end.

Definition sample_paths : list Path :=
  "locked.py" :: "pkg/locked.py" :: "nul.py" :: "broken.py" :: "latin1.py"
  :: map fst sample_files.

Definition sample_rt : Runtime :=
  {| is_file := fun p => bool_decide (p ∈ sample_paths);
     is_dir := fun p => bool_decide (p = "pkg");
     suffix := fun p => if bool_decide (p ∈ sample_paths) then ".py" else "";
     rglob := fun p _ => if bool_decide (p = "pkg")
                         then ["pkg/branch.py"; "pkg/locked.py"; "pkg/read.py"]
                         else [];
     sorted_paths := fun l => l;
     read_bytes := sample_read;
     decode_utf8 := sample_decode;
     decode_replace_total := sample_decode_total;
     ast_parse := sample_parse |}.

End Samples.

(** ** Derived notions used in the statements *)

(** The value a computation returns, if it returns. *)
Definition returned {A} (r : result A * console) : option A :=
  match r with
  | (Ok a, _) => Some a
  | (Raised _, _) => None
  end.

(** The findings [check_file] returns for a file, and the files
    [iter_python_files] yields for a command-line path. *)
Definition findings_of (rt : Runtime) (path : Path) : list Finding :=
  default [] (returned (check_file rt path (Console [] []))).




(** The nodes a pass over [async_func] applies the rules to. *)
Definition scanned_nodes (async_func : node) : list node :=
  filter (fun n => py_id n ∉ _nodes_inside_sync_context async_func)
         (walk async_func).

(** The nodes of a file that some pass applies the rules to, each once,
    and the (node, rule) pairs among them that match. *)
Definition reported_nodes (tree : node) : list node :=
  filter (fun n => Exists (fun f => py_id n ∈ py_id <$> scanned_nodes f)
                          (_collect_async_funcs tree))
         (walk tree).

Definition matched_pairs (rules : list Rule) (tree : node) : list (node * Rule) :=
  flat_map (fun n => map (fun r => (n, r))
                         (filter (fun r => matcher r n = true) rules))
           (reported_nodes tree).


(** Every rule of the registry accepts calls only. *)
Definition rules_on_calls (rules : list Rule) : Prop :=
  forall r n, r ∈ rules -> matcher r n = true -> is_call n = true.

(** The finding a rule produces at a node during the pass over a function. *)
Definition finding_for (path : Path) (async_func n : node) (r : Rule) : Finding :=
  mkFinding path (lineno n) (col_offset n) (name_of async_func) r.

(** What the runtime makes of a path: its file parses to a tree, cannot be
    read, does not parse, or makes the parser raise an exception that is not
    a [SyntaxError]. *)
Definition parses_to (rt : Runtime) (path : Path) (tree : node) : Prop :=
  exists data source,
    read_bytes rt path = inr data /\
    decode_utf8 rt Replace data = Some source /\
    ast_parse rt source path = inr tree.

Definition read_fails (rt : Runtime) (path : Path) : Prop :=
  exists msg, read_bytes rt path = inl msg.

Definition parse_fails (rt : Runtime) (path : Path) : Prop :=
  exists data source msg,
    read_bytes rt path = inr data /\
    decode_utf8 rt Replace data = Some source /\
    ast_parse rt source path = inl (PSyntaxError msg).

Definition parse_crashes (rt : Runtime) (path : Path) (e : exn) : Prop :=
  exists data source err,
    read_bytes rt path = inr data /\
    decode_utf8 rt Replace data = Some source /\
    ast_parse rt source path = inl err /\
    is_syntax_error err = false /\ e = parse_exn err.

(** A computation that returns after printing [lines] on standard output
    and nothing on standard error. *)
Definition prints (m : IO unit) (lines : list string) : Prop :=
  forall c, m c = (Ok tt, Console (stdout c ++ lines) (stderr c)).


(** ** Notions for the order of the walk, the console and the summary *)

(** The nodes [d] levels below [n], from left to right. *)
Fixpoint level (d : nat) (n : node) : list node :=
  match d with
  | O => [n]
  | S d' => flat_map (level d') (iter_child_nodes n)
  end.















(** What [print_summary] prints. *)
Definition summary_lines (all_findings : list Finding) : list string :=
  stdout (print_summary all_findings (Console [] [])).2.

(** The number of occurrences of a key. *)
Definition count_key (k : string) (keys : list string) : nat :=
  length (filter (fun k' => k' = k) keys).

(** Keys in strictly increasing order. *)
Definition key_lt (x y : string * nat) : Prop :=
  String.compare x.1 y.1 = Lt.

(** The dotted names the registry looks for, with their rules. *)
Definition dotted_rules : list (string * string * Rule) :=
  [("requests", "get", ASYNC001); ("requests", "post", ASYNC002);
   ("requests", "put", ASYNC003); ("requests", "delete", ASYNC004);
   ("time", "sleep", ASYNC005); ("subprocess", "run", ASYNC007);
   ("subprocess", "call", ASYNC008)].

(** The rows of the summary: the description is that of the first rule
    of the registry with the row's identifier. *)
Definition rule_description (k : string) : string :=
  match filter (fun r => rule_id r = k) RULES with
  | r :: _ => description r
  | [] => ""
  end.

Definition rule_row (item : string * nat) : string :=
  "  " +:+ item.1 +:+ ": " +:+ pretty item.2 +:+ "x  ("
  +:+ rule_description item.1 +:+ ")".

Definition file_row (item : string * nat) : string :=
  "  " +:+ format_3d item.2 +:+ "  " +:+ item.1.

(** The count an association list gives a key. *)
Definition counter_get (k : string) (c : list (string * nat)) : nat :=
  list_sum (filter (fun e => e.1 = k) c).*2.

(** ** More sample data *)

Module MoreSamples.



(** Findings of two files and two rules. *)
Definition some_findings : list Finding :=
  [mkFinding "b.py" 4 4 "f" ASYNC005;
   mkFinding "a.py" 2 0 "g" ASYNC001;
   mkFinding "b.py" 9 4 "h" ASYNC005].

End MoreSamples.

(** * Properties *)

(** ** Lists *)

Lemma flat_map_flat_map {A B C} (f : B -> list C) (g : A -> list B) (l : list A) :
  flat_map f (flat_map g l) = flat_map (fun x => flat_map f (g x)) l.
Proof.
  induction l as [|x l IH]; simpl; [done|]. by rewrite flat_map_app, IH.
Qed.

Lemma flat_map_nil_ext {A B} (f : A -> list B) (l : list A) :
  (forall x, x ∈ l -> f x = []) -> flat_map f l = [].
Proof.
  induction l as [|x l IH]; intros H; simpl; [done|].
  rewrite H by left. rewrite IH; [done|]. intros y Hy. apply H. by right.
Qed.

Lemma flat_map_ext_elem {A B} (f g : A -> list B) (l : list A) :
  (forall x, x ∈ l -> f x = g x) -> flat_map f l = flat_map g l.
Proof.
  induction l as [|x l IH]; intros H; simpl; [done|].
  rewrite H by left. f_equal. apply IH. intros y Hy. apply H. by right.
Qed.

Lemma flat_map_pointwise_perm {A B} (f g : A -> list B) (l : list A) :
  (forall x, x ∈ l -> f x ≡ₚ g x) -> flat_map f l ≡ₚ flat_map g l.
Proof.
  induction l as [|x l IH]; intros H; simpl; [done|].
  rewrite (H x) by left. f_equiv. apply IH. intros y Hy. apply H. by right.
Qed.

Lemma flat_map_perm {A B} (f g : A -> list B) (l l' : list A) :
  l ≡ₚ l' -> (forall x, x ∈ l -> f x ≡ₚ g x) ->
  flat_map f l ≡ₚ flat_map g l'.
Proof.
  intros Hp H. etrans; [by apply flat_map_pointwise_perm|].
  by apply Permutation_flat_map.
Qed.

Lemma flat_map_split_perm {A B} (f g h : A -> list B) (l : list A) :
  Forall (fun x => f x ≡ₚ g x ++ h x) l ->
  flat_map f l ≡ₚ flat_map g l ++ flat_map h l.
Proof.
  induction 1 as [|x l Hx _ IH]; simpl; [done|].
  rewrite Hx, IH. rewrite <- !app_assoc. f_equiv.
  rewrite !app_assoc. f_equiv. apply Permutation_app_comm.
Qed.

Lemma sublist_flat_map_elem {A B} (f : A -> list B) (x : A) (l : list A) :
  x ∈ l -> f x `sublist_of` flat_map f l.
Proof.
  induction 1 as [x l|x y l _ IH]; simpl.
  - by apply sublist_inserts_r.
  - by apply sublist_inserts_l.
Qed.

Lemma elem_of_flat_map {A B} (f : A -> list B) (l : list A) (y : B) :
  y ∈ flat_map f l <-> exists x, x ∈ l /\ y ∈ f x.
Proof.
  rewrite list_elem_of_In, in_flat_map. setoid_rewrite list_elem_of_In. done.
Qed.

(** ** Trees *)

(** Induction on a tree through [iter_child_nodes]. *)
Lemma node_children_ind (P : node -> Prop) :
  (forall n, Forall P (iter_child_nodes n) -> P n) -> forall n, P n.
Proof.
  intros step.
  fix IH 1. intros n. apply step.
  destruct n as [a f args|a i c|a v s c|a s cs|a s cs|a s cs|a cs]; simpl.
  - constructor; [apply IH|]. induction args; constructor; [apply IH|done].
  - constructor; [apply IH|constructor].
  - constructor; [apply IH|]. constructor; [apply IH|constructor].
  - induction cs; constructor; [apply IH|done].
  - induction cs; constructor; [apply IH|done].
  - induction cs; constructor; [apply IH|done].
  - induction cs; constructor; [apply IH|done].
Qed.

Lemma size_children n :
  size n = S (list_sum (map size (iter_child_nodes n))).
Proof. destruct n; simpl; lia. Qed.

Lemma subtree_children n :
  subtree n = n :: flat_map subtree (iter_child_nodes n).
Proof. destruct n; simpl; by rewrite ?app_nil_r. Qed.

Lemma own_nodes_children n :
  own_nodes n =
  if is_sync_scope n then [] else n :: flat_map own_nodes (iter_child_nodes n).
Proof. destruct n; simpl; by rewrite ?app_nil_r. Qed.

Lemma sync_nodes_children n :
  sync_nodes n =
  if is_sync_scope n then subtree n
  else flat_map sync_nodes (iter_child_nodes n).
Proof. destruct n; simpl; by rewrite ?app_nil_r. Qed.

Lemma subtree_sublist n d : d ∈ subtree n -> subtree d `sublist_of` subtree n.
Proof.
  revert d. induction n as [n IH] using node_children_ind. intros d.
  rewrite (subtree_children n). intros [->|Hd]%elem_of_cons.
  - by rewrite <- subtree_children.
  - apply sublist_cons.
    apply elem_of_flat_map in Hd as (c & Hc & Hd).
    etrans; [|by apply sublist_flat_map_elem].
    rewrite Forall_forall in IH. by apply IH.
Qed.

Lemma subtree_trans n d m : d ∈ subtree n -> m ∈ subtree d -> m ∈ subtree n.
Proof.
  intros Hd%subtree_sublist%sublist_submseteq Hm.
  by apply (elem_of_submseteq _ _ _ Hm).
Qed.

Lemma subtree_self n : n ∈ subtree n.
Proof. rewrite subtree_children. left. Qed.

(** The own level and the synchronous contexts split the subtree. *)
Lemma subtree_split n : subtree n ≡ₚ own_nodes n ++ sync_nodes n.
Proof.
  induction n as [n IH] using node_children_ind.
  rewrite own_nodes_children, sync_nodes_children.
  destruct (is_sync_scope n); [done|].
  rewrite subtree_children. simpl. f_equiv.
  by apply flat_map_split_perm.
Qed.

Lemma elem_of_sync_nodes n m :
  m ∈ sync_nodes n <->
  exists d, d ∈ subtree n /\ is_sync_scope d = true /\ m ∈ subtree d.
Proof.
  revert m. induction n as [n IH] using node_children_ind. intros m.
  rewrite Forall_forall in IH.
  rewrite sync_nodes_children. destruct (is_sync_scope n) eqn:Hn.
  - split.
    + intros Hm. exists n. split_and!; [apply subtree_self|done..].
    + intros (d & Hd & _ & Hm). by eapply subtree_trans.
  - rewrite elem_of_flat_map. split.
    + intros (c & Hc & Hm). apply IH in Hm as (d & Hd & Hs & Hm); [|done].
      exists d. split_and!; [|done..].
      rewrite subtree_children. right. apply elem_of_flat_map. eauto.
    + intros (d & Hd & Hs & Hm).
      rewrite subtree_children in Hd.
      apply elem_of_cons in Hd as [->|Hd]; [congruence|].
      apply elem_of_flat_map in Hd as (c & Hc & Hd).
      exists c. split; [done|]. apply IH; eauto.
Qed.

Lemma own_nodes_subtree n m : m ∈ own_nodes n -> m ∈ subtree n.
Proof. intros Hm. rewrite subtree_split. set_solver. Qed.


(** The own level of a function nested at the own level of another is part
    of the latter's own level. *)
Lemma own_nodes_trans n g m : g ∈ own_nodes n -> m ∈ own_nodes g -> m ∈ own_nodes n.
Proof.
  revert g m. induction n as [n IH] using node_children_ind. intros g m.
  rewrite Forall_forall in IH.
  rewrite (own_nodes_children n). destruct (is_sync_scope n) eqn:Hn.
  - by intros ?%elem_of_nil.
  - intros [->|Hg]%elem_of_cons Hm.
    + rewrite own_nodes_children, Hn in Hm. done.
    + right. apply elem_of_flat_map in Hg as (c & Hc & Hg).
      apply elem_of_flat_map. exists c. split; [done|]. by eapply IH.
Qed.

(** ** The walk *)

(** Enough fuel: the walk yields the nodes of the queued trees, each once. *)
Lemma walk_queue_perm fuel todo :
  (list_sum (map size todo) <= fuel)%nat ->
  walk_queue fuel todo ≡ₚ flat_map subtree todo.
Proof.
  revert todo. induction fuel as [|k IH]; intros [|n todo] Hle; simpl in *.
  - done.
  - pose proof (size_children n). lia.
  - done.
  - rewrite IH.
    + rewrite flat_map_app, (subtree_children n). simpl. f_equiv.
      apply Permutation_app_comm.
    + rewrite map_app, list_sum_app. pose proof (size_children n). lia.
Qed.

(** More fuel than the number of nodes changes nothing. *)
Lemma walk_queue_fuel fuel todo :
  (list_sum (map size todo) <= fuel)%nat ->
  walk_queue fuel todo = walk_queue (list_sum (map size todo)) todo.
Proof.
  revert todo. induction fuel as [|k IH]; intros [|n todo] Hle; simpl in *.
  - done.
  - pose proof (size_children n). lia.
  - done.
  - pose proof (size_children n) as Hn.
    assert (list_sum (map size (todo ++ iter_child_nodes n))
            = (size n + list_sum (map size todo) - 1)%nat) as Hsum.
    { rewrite map_app, list_sum_app. lia. }
    rewrite IH by lia.
    destruct (size n + list_sum (map size todo))%nat as [|k'] eqn:Hk; [lia|].
    simpl. f_equal. rewrite Hsum. f_equal. lia.
Qed.

Lemma walk_perm n : walk n ≡ₚ subtree n.
Proof.
  unfold walk. rewrite walk_queue_perm by (simpl; lia).
  simpl. by rewrite app_nil_r.
Qed.

Lemma elem_of_walk n m : m ∈ walk n <-> m ∈ subtree n.
Proof. by rewrite walk_perm. Qed.

Lemma walk_length n : length (walk n) = size n.
Proof.
  rewrite walk_perm. induction n as [n IH] using node_children_ind.
  rewrite subtree_children, size_children. simpl. f_equal.
  induction IH as [|c cs Hc _ IHcs]; simpl; [done|].
  by rewrite length_app, Hc, IHcs.
Qed.

Lemma collect_async_funcs_perm tree : _collect_async_funcs tree ≡ₚ async_defs tree.
Proof. unfold _collect_async_funcs, async_defs. by rewrite walk_perm. Qed.

(** ** The walk, level by level *)

Lemma walk_queue_front l r fuel :
  (length l <= fuel)%nat ->
  walk_queue fuel (l ++ r) =
  l ++ walk_queue (fuel - length l) (r ++ flat_map iter_child_nodes l).
Proof.
  revert r fuel. induction l as [|x l IH]; intros r fuel Hle; simpl in *.
  - by rewrite Nat.sub_0_r, app_nil_r.
  - destruct fuel as [|k]; [lia|]. simpl. f_equal.
    rewrite <- app_assoc, IH by lia. by rewrite <- app_assoc.
Qed.

Lemma size_elem_of (c : node) (l : list node) :
  c ∈ l -> (size c <= list_sum (map size l))%nat.
Proof. induction 1 as [c l|c y l _ IH]; simpl; lia. Qed.

Lemma size_child n c : c ∈ iter_child_nodes n -> (size c < size n)%nat.
Proof. intros Hc%size_elem_of. rewrite (size_children n). lia. Qed.

Lemma level_beyond d n : (size n <= d)%nat -> level d n = [].
Proof.
  revert n. induction d as [|d IH]; intros n Hle; simpl.
  - pose proof (size_children n). lia.
  - apply flat_map_nil_ext. intros c Hc%size_child. apply IH. lia.
Qed.

Lemma forest_level_succ d q :
  flat_map (level (S d)) q = flat_map (level d) (flat_map iter_child_nodes q).
Proof. by rewrite flat_map_flat_map. Qed.

Lemma forest_level_beyond d q :
  (list_sum (map size q) <= d)%nat -> flat_map (level d) q = [].
Proof.
  intros Hle. apply flat_map_nil_ext. intros n Hn%size_elem_of.
  apply level_beyond. lia.
Qed.

Lemma forest_children_size q :
  list_sum (map size (flat_map iter_child_nodes q))
  = (list_sum (map size q) - length q)%nat.
Proof.
  induction q as [|n q IH]; simpl; [done|].
  rewrite map_app, list_sum_app, IH, (size_children n).
  assert (length q <= list_sum (map size q))%nat; [|lia].
  clear. induction q as [|m q IH]; simpl; [done|].
  pose proof (size_children m). lia.
Qed.

Lemma flat_map_seq_beyond {A} (f : nat -> list A) (a b : nat) :
  (a <= b)%nat -> (forall d, (a <= d)%nat -> f d = []) ->
  flat_map f (seq 0 b) = flat_map f (seq 0 a).
Proof.
  intros Hab Hnil.
  destruct (Nat.le_exists_sub a b Hab) as (k & -> & _).
  rewrite Nat.add_comm, seq_app, flat_map_app.
  rewrite (flat_map_nil_ext f (seq (0 + a) k)); [by rewrite app_nil_r|].
  intros d Hd%list_elem_of_In%in_seq. apply Hnil. lia.
Qed.

Lemma forest_size_length (q : list node) :
  (length q <= list_sum (map size q))%nat.
Proof.
  induction q as [|m q IH]; simpl; [done|]. pose proof (size_children m). lia.
Qed.

Lemma forest_level_0 (q : list node) : flat_map (level 0) q = q.
Proof. induction q as [|m q IH]; [done|]. simpl. f_equal. exact IH. Qed.

Lemma walk_queue_levels fuel q :
  (list_sum (map size q) <= fuel)%nat ->
  walk_queue fuel q = flat_map (fun d => flat_map (level d) q) (seq 0 fuel).
Proof.
  revert q. induction fuel as [fuel IH] using lt_wf_ind. intros q Hle.
  destruct (decide (q = [])) as [->|Hq].
  { rewrite (flat_map_nil_ext _ (seq 0 fuel)); [by destruct fuel|done]. }
  assert (1 <= length q)%nat as Hpos by (destruct q; [done|simpl; lia]).
  pose proof (forest_size_length q) as Hlen.
  destruct fuel as [|k]; [lia|].
  rewrite <- (app_nil_r q) at 1. rewrite walk_queue_front by lia.
  rewrite app_nil_l.
  rewrite IH; [|lia|rewrite forest_children_size; lia].
  change (seq 0 (S k)) with (0%nat :: seq 1 k).
  rewrite <- seq_shift.
  change (flat_map (fun d => flat_map (level d) q) (0%nat :: map S (seq 0 k)))
    with (flat_map (level 0) q
          ++ flat_map (fun d => flat_map (level d) q) (map S (seq 0 k))).
  rewrite forest_level_0. f_equal.
  rewrite (flat_map_concat_map _ (map S _)), map_map, <- flat_map_concat_map.
  rewrite (flat_map_ext_elem (fun d => flat_map (level (S d)) q)
             (fun d => flat_map (level d) (flat_map iter_child_nodes q)))
    by (intros; apply forest_level_succ).
  symmetry. apply flat_map_seq_beyond; [lia|].
  intros d Hd. apply forest_level_beyond. rewrite forest_children_size. lia.
Qed.

Lemma filter_flat_map {A B} (P : B -> Prop) `{!forall x, Decision (P x)}
    (f : A -> list B) (l : list A) :
  filter P (flat_map f l) = flat_map (fun x => filter P (f x)) l.
Proof.
  induction l as [|x l IH]; [done|]. simpl. by rewrite filter_app, IH.
Qed.



(** ** The exclusion set *)

Lemma elem_of_add_ids (l : list node) (X : gset Z) (i : Z) :
  i ∈ foldl (fun ex child => {[ py_id child ]} ∪ ex) X l <->
  i ∈ X \/ exists m, m ∈ l /\ py_id m = i.
Proof.
  revert X. induction l as [|x l IH]; intros X; simpl.
  - set_solver.
  - rewrite IH. set_solver.
Qed.

Lemma elem_of_excluded_fold (l : list node) (X : gset Z) (i : Z) :
  i ∈ foldl (fun excluded n =>
               if is_sync_scope n
               then foldl (fun ex child => {[ py_id child ]} ∪ ex) excluded (walk n)
               else excluded) X l <->
  i ∈ X \/ exists d m, d ∈ l /\ is_sync_scope d = true /\ m ∈ walk d /\ py_id m = i.
Proof.
  revert X. induction l as [|x l IH]; intros X; simpl.
  - set_solver.
  - rewrite IH. destruct (is_sync_scope x) eqn:Hx.
    + rewrite elem_of_add_ids. split.
      * intros [[?|(m & ? & ?)]|(d & m & ? & ?)]; [by left|right..].
        -- exists x, m. set_solver.
        -- exists d, m. set_solver.
      * intros [?|(d & m & [->|?]%elem_of_cons & ? & ? & ?)]; [by do 2 left|..].
        -- left. right. eauto.
        -- right. exists d, m. eauto.
    + split.
      * intros [?|(d & m & ? & ?)]; [by left|right]. exists d, m. set_solver.
      * intros [?|(d & m & [->|?]%elem_of_cons & ? & ? & ?)];
          [by left|congruence|]. right. exists d, m. eauto.
Qed.

(** The set holds the identities of the nodes inside the function's nested
    synchronous definitions and classes, and nothing else. *)
Lemma elem_of_nodes_inside_sync_context f i :
  i ∈ _nodes_inside_sync_context f <-> exists m, m ∈ sync_nodes f /\ py_id m = i.
Proof.
  unfold _nodes_inside_sync_context. rewrite elem_of_excluded_fold. split.
  - intros [?|(d & m & Hd & Hs & Hm & Hi)]; [set_solver|].
    exists m. split; [|done]. apply elem_of_sync_nodes.
    exists d. by rewrite <- !elem_of_walk.
  - intros (m & (d & Hd & Hs & Hm)%elem_of_sync_nodes & Hi). right.
    exists d, m. by rewrite !elem_of_walk.
Qed.

(** ** Identities of calls *)

Lemma call_ids_app l1 l2 : call_ids (l1 ++ l2) = call_ids l1 ++ call_ids l2.
Proof. unfold call_ids. by rewrite filter_app, fmap_app. Qed.

Lemma elem_of_call_ids l i :
  i ∈ call_ids l <-> exists n, n ∈ l /\ is_call n = true /\ py_id n = i.
Proof.
  unfold call_ids. rewrite list_elem_of_fmap.
  setoid_rewrite list_elem_of_filter. naive_solver.
Qed.

Lemma filter_sublist_mono {A} (P : A -> Prop) `{!forall x, Decision (P x)} (l1 l2 : list A) :
  l1 `sublist_of` l2 -> filter P l1 `sublist_of` filter P l2.
Proof.
  induction 1 as [|x l1 l2 _ IH|x l1 l2 _ IH]; rewrite ?filter_cons.
  - done.
  - case_decide; [by apply sublist_skip|done].
  - case_decide; [by apply sublist_cons|done].
Qed.

Lemma calls_distinct_perm l l' : l ≡ₚ l' -> calls_distinct l -> calls_distinct l'.
Proof.
  intros Hp [Hnd Hall]. assert (call_ids l ≡ₚ call_ids l') as Hc.
  { unfold call_ids. by rewrite Hp. }
  split.
  - by rewrite <- Hc.
  - rewrite <- Hp. eapply Forall_impl; [done|]. simpl. intros m Hm ?.
    rewrite <- Hc. auto.
Qed.

Lemma calls_distinct_sublist l l' :
  l' `sublist_of` l -> calls_distinct l -> calls_distinct l'.
Proof.
  intros Hs [Hnd Hall].
  assert (call_ids l' `sublist_of` call_ids l) as Hc.
  { unfold call_ids. by apply fmap_sublist, filter_sublist_mono. }
  split.
  - by eapply sublist_NoDup.
  - rewrite Forall_forall in Hall. apply Forall_forall. intros m Hm Hcall Hin.
    apply (Hall m); [|done|].
    + by eapply elem_of_submseteq, sublist_submseteq.
    + by eapply elem_of_submseteq, sublist_submseteq.
Qed.

(** In a tree whose calls are distinct objects, a call on one side of a
    split shares its identity with no node on the other side. *)
Lemma calls_distinct_app l1 l2 n m :
  calls_distinct (l1 ++ l2) -> n ∈ l1 -> m ∈ l2 -> is_call n = true ->
  py_id n <> py_id m.
Proof.
  intros [Hnd Hall] Hn Hm Hcall Heq.
  destruct (is_call m) eqn:Hcm.
  - rewrite call_ids_app in Hnd. apply NoDup_app in Hnd as (_ & Hdisj & _).
    apply (Hdisj (py_id n)); apply elem_of_call_ids; eauto.
  - rewrite Forall_forall in Hall. apply (Hall m); [set_solver|done|].
    apply elem_of_call_ids. exists n. set_solver.
Qed.

Lemma well_identified_subtree tree f :
  well_identified tree -> f ∈ subtree tree -> well_identified f.
Proof.
  unfold well_identified. intros Hw Hf.
  eapply calls_distinct_sublist; [|done]. by apply subtree_sublist.
Qed.

(** ** The registry *)

Lemma matcher_call : rules_on_calls RULES.
Proof.
  intros r n Hr Hm. unfold RULES in Hr.
  repeat (apply elem_of_cons in Hr as [->|Hr]);
    try (by destruct n); by apply elem_of_nil in Hr.
Qed.

Lemma RULES_ids_distinct : NoDup (rule_id <$> RULES).
Proof. apply (bool_decide_unpack (NoDup (rule_id <$> RULES))). by vm_compute. Qed.

(** ** One pass *)

Lemma findings_at_filter rules path f n :
  findings_at rules path f n =
  finding_for path f n <$> filter (fun r => matcher r n = true) rules.
Proof.
  unfold findings_at. induction rules as [|r rules IH]; simpl; [done|].
  rewrite filter_cons, IH. destruct (matcher r n); by case_decide.
Qed.

Lemma elem_of_findings_at rules path f n x :
  x ∈ findings_at rules path f n <->
  exists r, r ∈ rules /\ matcher r n = true /\ x = finding_for path f n r.
Proof.
  rewrite findings_at_filter, list_elem_of_fmap.
  setoid_rewrite list_elem_of_filter. naive_solver.
Qed.

Lemma findings_at_not_call rules path f n :
  rules_on_calls rules -> is_call n = false -> findings_at rules path f n = [].
Proof.
  intros Hr Hn. unfold findings_at. apply flat_map_nil_ext. intros r Hin.
  destruct (matcher r n) eqn:Hm; [|done]. apply Hr in Hm; congruence.
Qed.

Lemma scan_function_scanned rules path f :
  scan_function rules path f =
  flat_map (findings_at rules path f) (scanned_nodes f).
Proof.
  unfold scan_function, scanned_nodes.
  induction (walk f) as [|n l IH]; simpl; [done|].
  rewrite filter_cons, IH.
  case_bool_decide; case_decide; done.
Qed.

Lemma scanned_nodes_outside f n :
  n ∈ scanned_nodes f -> n ∈ subtree f /\ n ∉ sync_nodes f.
Proof.
  unfold scanned_nodes. rewrite list_elem_of_filter, elem_of_walk.
  intros [Hex Hn]. split; [done|]. intros Hs. apply Hex.
  apply elem_of_nodes_inside_sync_context. eauto.
Qed.

(** A pass reports what the rules accept on the function's own level. *)
Lemma scan_function_perm rules path f :
  rules_on_calls rules -> well_identified f ->
  scan_function rules path f ≡ₚ expected_function rules path f.
Proof.
  intros Hr Hw. unfold scan_function, expected_function.
  set (g := fun n => if bool_decide (py_id n ∈ _nodes_inside_sync_context f)
                     then [] else findings_at rules path f n).
  assert (walk f ≡ₚ own_nodes f ++ sync_nodes f) as Hp.
  { by rewrite walk_perm, subtree_split. }
  rewrite (Permutation_flat_map g Hp), flat_map_app.
  rewrite (flat_map_nil_ext g (sync_nodes f)), app_nil_r.
  - apply reflexive_eq, flat_map_ext_elem. intros n Hn. unfold g.
    case_bool_decide as Hex; [|done].
    destruct (is_call n) eqn:Hc; [|by rewrite findings_at_not_call].
    apply elem_of_nodes_inside_sync_context in Hex as (m & Hm & Heq).
    exfalso. eapply (calls_distinct_app (own_nodes f) (sync_nodes f) n m); eauto.
    eapply calls_distinct_perm; [apply subtree_split|done].
  - intros n Hn. unfold g. rewrite bool_decide_eq_true_2; [done|].
    apply elem_of_nodes_inside_sync_context. eauto.
Qed.

Lemma scan_tree_perm rules path tree :
  rules_on_calls rules -> well_identified tree ->
  scan_tree rules path tree ≡ₚ expected_tree rules path tree.
Proof.
  intros Hr Hw. unfold scan_tree, expected_tree.
  apply flat_map_perm; [apply collect_async_funcs_perm|].
  intros f Hf. apply scan_function_perm; [done|].
  apply (well_identified_subtree tree); [done|].
  unfold _collect_async_funcs in Hf.
  apply list_elem_of_filter in Hf as [_ Hf]. by apply elem_of_walk.
Qed.

Lemma elem_of_collect_async_funcs tree f :
  f ∈ _collect_async_funcs tree <-> f ∈ subtree tree /\ is_async_def f = true.
Proof.
  unfold _collect_async_funcs. rewrite list_elem_of_filter, elem_of_walk. tauto.
Qed.

Lemma elem_of_scan_tree rules path tree x :
  x ∈ scan_tree rules path tree <->
  exists f n r,
    f ∈ subtree tree /\ is_async_def f = true /\ n ∈ scanned_nodes f /\
    r ∈ rules /\ matcher r n = true /\ x = finding_for path f n r.
Proof.
  unfold scan_tree. rewrite elem_of_flat_map. split.
  - intros (f & [Hf Ha]%elem_of_collect_async_funcs & Hx).
    rewrite scan_function_scanned in Hx.
    apply elem_of_flat_map in Hx as (n & Hn & Hx).
    apply elem_of_findings_at in Hx as (r & Hr & Hm & ->).
    by exists f, n, r.
  - intros (f & n & r & Hf & Ha & Hn & Hr & Hm & ->).
    exists f. split; [by apply elem_of_collect_async_funcs|].
    rewrite scan_function_scanned. apply elem_of_flat_map.
    exists n. split; [done|]. apply elem_of_findings_at. by exists r.
Qed.

Lemma elem_of_expected_tree rules path tree x :
  x ∈ expected_tree rules path tree <->
  exists f n r,
    f ∈ subtree tree /\ is_async_def f = true /\ n ∈ own_nodes f /\
    r ∈ rules /\ matcher r n = true /\ x = finding_for path f n r.
Proof.
  unfold expected_tree, expected_function, async_defs.
  rewrite elem_of_flat_map.
  setoid_rewrite list_elem_of_filter. setoid_rewrite elem_of_flat_map.
  setoid_rewrite elem_of_findings_at. split.
  - intros (f & [Ha Hf] & n & Hn & r & Hr & Hm & ->). by exists f, n, r.
  - intros (f & n & r & Hf & Ha & Hn & Hr & Hm & ->).
    exists f. split; [done|]. exists n. split; [done|]. by exists r.
Qed.

Lemma expected_tree_length rules path tree :
  length (expected_tree rules path tree) = length (matched_triples rules tree).
Proof.
  unfold expected_tree, matched_triples, expected_function.
  induction (async_defs tree) as [|f fs IHf]; simpl; [done|].
  rewrite !length_app, IHf. f_equal.
  induction (own_nodes f) as [|n ns IHn]; simpl; [done|].
  rewrite !length_app, IHn. f_equal.
  by rewrite findings_at_filter, length_fmap, length_map.
Qed.

(** ** Computations *)

Lemma console_eta c : Console (stdout c) (stderr c) = c.
Proof. by destruct c. Qed.

Lemma prints_print s : prints (print s) [s].
Proof. done. Qed.

Lemma prints_ret : prints (io_ret tt) [].
Proof. intros c. unfold io_ret. by rewrite app_nil_r, console_eta. Qed.

Lemma prints_bind {A} (m : IO A) (k : A -> IO unit) a l1 l2 :
  (forall c, m c = (Ok a, Console (stdout c ++ l1) (stderr c))) ->
  prints (k a) l2 -> prints (io_bind m k) (l1 ++ l2).
Proof.
  intros Hm Hk c. unfold io_bind. rewrite Hm, Hk. simpl. by rewrite app_assoc.
Qed.

Lemma prints_seq (m k : IO unit) l1 l2 :
  prints m l1 -> prints k l2 -> prints (m ;; k) (l1 ++ l2).
Proof. intros Hm Hk. by apply (prints_bind m (fun _ => k) tt). Qed.

Lemma prints_for_each {A} (xs : list A) (body : A -> IO unit) (lines : A -> list string) :
  (forall x, x ∈ xs -> prints (body x) (lines x)) ->
  prints (for_each xs body) (flat_map lines xs).
Proof.
  induction xs as [|x xs IH]; intros H; simpl.
  - apply prints_ret.
  - apply prints_seq; [apply H; left|]. apply IH. intros y Hy. apply H. by right.
Qed.





(** ** Loops that an exception may end *)











(** An item on which the body does nothing can be left out. *)
Lemma for_fold_skip {A S} (xs ys : list A) (x : A) (body : S -> A -> IO S) :
  (forall s c, body s x c = (Ok s, c)) ->
  forall s c, for_fold (xs ++ x :: ys) body s c = for_fold (xs ++ ys) body s c.
Proof.
  intros Hx. induction xs as [|y xs IH]; intros s c; simpl.
  - unfold io_bind. by rewrite Hx.
  - unfold io_bind. destruct (body s y c) as [[s'|e] c']; [apply IH|done].
Qed.

(** ** [check_file] *)

Lemma file_cases rt path :
  read_fails rt path \/ parse_fails rt path \/
  (exists e, parse_crashes rt path e) \/ exists tree, parses_to rt path tree.
Proof.
  unfold read_fails, parse_fails, parse_crashes, parses_to.
  destruct (read_bytes rt path) as [msg|data] eqn:Hr; [left; eauto|right].
  destruct (decode_replace_total rt data) as [source Hd].
  destruct (ast_parse rt source path) as [err|tree] eqn:Hp.
  - destruct (is_syntax_error err) eqn:Hs.
    + left. destruct err as [msg| | |]; try done. by exists data, source, msg.
    + right; left. by exists (parse_exn err), data, source, err.
  - right; right. by exists tree, data, source.
Qed.

Lemma check_file_parsed rt path tree c :
  parses_to rt path tree ->
  check_file rt path c = (Ok (scan_tree RULES path tree), c).
Proof.
  intros (data & source & Hr & Hd & Hp).
  unfold check_file, io_bind, catch, read_text, parse, io_ret.
  by rewrite Hr, Hd, Hp.
Qed.

Lemma check_file_read_fails rt path msg c :
  read_bytes rt path = inl msg ->
  check_file rt path c =
  (Ok [], Console (stdout c)
                  (stderr c ++ ["ERROR: Cannot read " +:+ path +:+ ": " +:+ msg])).
Proof.
  intros Hr. unfold check_file, io_bind, catch, read_text, raise.
  by rewrite Hr.
Qed.

Lemma check_file_parse_fails rt path data source msg c :
  read_bytes rt path = inr data ->
  decode_utf8 rt Replace data = Some source ->
  ast_parse rt source path = inl (PSyntaxError msg) ->
  check_file rt path c =
  (Ok [], Console (stdout c)
                  (stderr c ++ ["ERROR: Syntax error in " +:+ path +:+ ": " +:+ msg])).
Proof.
  intros Hr Hd Hp.
  unfold check_file, io_bind, catch, read_text, parse, raise, io_ret.
  by rewrite Hr, Hd, Hp.
Qed.

(** An exception of the parser that is not a [SyntaxError] leaves
    [check_file] as it came. *)
Lemma check_file_parse_raises rt path data source err c :
  read_bytes rt path = inr data ->
  decode_utf8 rt Replace data = Some source ->
  ast_parse rt source path = inl err ->
  is_syntax_error err = false ->
  check_file rt path c = (Raised (parse_exn err), c).
Proof.
  intros Hr Hd Hp Hs.
  unfold check_file, io_bind, catch, read_text, parse, raise, io_ret.
  rewrite Hr, Hd, Hp. by destruct err.
Qed.

Lemma check_file_parse_crashes rt path e c :
  parse_crashes rt path e -> check_file rt path c = (Raised e, c).
Proof.
  intros (data & source & err & Hr & Hd & Hp & Hs & ->).
  by eapply check_file_parse_raises.
Qed.

Lemma findings_of_parsed rt path tree :
  parses_to rt path tree -> findings_of rt path = scan_tree RULES path tree.
Proof. intros H. unfold findings_of. by rewrite (check_file_parsed _ _ tree). Qed.

Lemma findings_of_read_fails rt path : read_fails rt path -> findings_of rt path = [].
Proof.
  intros [msg H]. unfold findings_of. by rewrite (check_file_read_fails _ _ msg).
Qed.

Lemma findings_of_parse_fails rt path : parse_fails rt path -> findings_of rt path = [].
Proof.
  intros (data & source & msg & Hr & Hd & Hp). unfold findings_of.
  by rewrite (check_file_parse_fails _ _ data source msg).
Qed.

Lemma findings_of_parse_crashes rt path e :
  parse_crashes rt path e -> findings_of rt path = [].
Proof.
  intros H. unfold findings_of. by rewrite (check_file_parse_crashes _ _ e).
Qed.












(** ** Reporting and the loops of [main] *)










(** ** The summary *)

Lemma counter_add_key k c x :
  x ∈ (counter_add k c).*1 -> x = k \/ x ∈ c.*1.
Proof.
  induction c as [|[k' n] c IH]; simpl.
  - rewrite list_elem_of_singleton. by left.
  - destruct (String.eqb k' k); simpl; rewrite !elem_of_cons; [tauto|].
    intros [->|H]; [tauto|]. destruct (IH H); tauto.
Qed.

Lemma Counter_key keys x : x ∈ (Counter keys).*1 -> x ∈ keys.
Proof.
  unfold Counter.
  assert (forall acc, x ∈ (foldl (fun c k => counter_add k c) acc keys).*1 ->
                      x ∈ acc.*1 \/ x ∈ keys) as H.
  { induction keys as [|k keys IH]; intros acc; simpl; [by left|].
    intros [[->|?]%counter_add_key|?]%IH; rewrite elem_of_cons; tauto. }
  intros [[]%elem_of_nil|?]%H. done.
Qed.

Lemma item_insert_elem x l y : y ∈ item_insert x l -> y = x \/ y ∈ l.
Proof.
  induction l as [|z l IH]; simpl.
  - rewrite list_elem_of_singleton. by left.
  - destruct (item_ltb x z); rewrite !elem_of_cons; [tauto|].
    intros [->|H]; [tauto|]. destruct (IH H); tauto.
Qed.

Lemma sorted_items_elem l y : y ∈ sorted_items l -> y ∈ l.
Proof.
  unfold sorted_items.
  assert (forall acc, y ∈ foldl (fun acc x => item_insert x acc) acc l ->
                      y ∈ acc \/ y ∈ l) as H.
  { induction l as [|x l IH]; intros acc; simpl; [by left|].
    intros [[->|?]%item_insert_elem|?]%IH; rewrite elem_of_cons; tauto. }
  intros [[]%elem_of_nil|?]%H. done.
Qed.






(** * The specification, property by property *)

Ltac elem_of_concrete :=
  repeat first [apply list_elem_of_here | apply list_elem_of_further].

Ltac sample_parses :=
  eexists _, _; split_and!; reflexivity.

(** ** Nested asynchronous functions *)

(** C1, as the code has it: a call on the own level of an [async def] [g]
    that is itself on the own level of another [async def] [f] is reported
    under [g] and under [f] as well: the body of a nested asynchronous
    function is not in the exclusion set of the outer pass, which holds
    nested synchronous functions and classes only.  The findings of a file
    are, up to order, one per asynchronous function, node of its own level
    and rule accepting the node. *)
Theorem nested_async_reported_per_function rt path tree f g n r :
  parses_to rt path tree ->
  well_identified tree ->
  f ∈ async_defs tree ->
  g ∈ own_nodes f -> is_async_def g = true -> g <> f ->
  n ∈ own_nodes g ->
  r ∈ RULES -> matcher r n = true ->
  finding_for path g n r ∈ findings_of rt path /\
  finding_for path f n r ∈ findings_of rt path /\
  (py_id n ∉ _nodes_inside_sync_context f) /\
  findings_of rt path ≡ₚ expected_tree RULES path tree.
Proof.
  intros Hp Hw Hf Hg Hga _ Hn Hr Hm.
  apply list_elem_of_filter in Hf as [Hfa Hf].
  assert (findings_of rt path ≡ₚ expected_tree RULES path tree) as Hperm.
  { rewrite (findings_of_parsed _ _ _ Hp).
    apply scan_tree_perm; [apply matcher_call|done]. }
  split_and!; [| | |done].
  - rewrite Hperm. apply elem_of_expected_tree. exists g, n, r.
    split_and!; try done.
    eapply subtree_trans; [done|]. by apply own_nodes_subtree.
  - rewrite Hperm. apply elem_of_expected_tree. exists f, n, r.
    split_and!; try done. by eapply own_nodes_trans.
  - intros (m & Hms & Hid)%elem_of_nodes_inside_sync_context.
    eapply (calls_distinct_app (own_nodes f) (sync_nodes f) n m); eauto.
    + eapply calls_distinct_perm; [apply subtree_split|].
      by apply (well_identified_subtree tree).
    + by eapply own_nodes_trans.
    + by eapply matcher_call.
Qed.

Lemma nested_async_reported_per_function_witness :
  finding_for "nested.py" Samples.nested_inner (Samples.open_call 36 3 8) ASYNC006
    ∈ findings_of Samples.sample_rt "nested.py" /\
  finding_for "nested.py" Samples.nested_outer (Samples.open_call 36 3 8) ASYNC006
    ∈ findings_of Samples.sample_rt "nested.py" /\
  (py_id (Samples.open_call 36 3 8)
     ∉ _nodes_inside_sync_context Samples.nested_outer) /\
  findings_of Samples.sample_rt "nested.py"
    ≡ₚ expected_tree RULES "nested.py" Samples.nested_tree.
Proof.
  apply (nested_async_reported_per_function
           Samples.sample_rt "nested.py" Samples.nested_tree
           Samples.nested_outer Samples.nested_inner
           (Samples.open_call 36 3 8) ASYNC006).
  - sample_parses.
  - apply (bool_decide_unpack (calls_distinct _)). vm_compute. exact I.
  - apply list_elem_of_filter. split; [reflexivity|]. simpl. elem_of_concrete.
  - simpl. elem_of_concrete.
  - reflexivity.
  - discriminate.
  - simpl. elem_of_concrete.
  - unfold RULES. elem_of_concrete.
  - reflexivity.
Defined.

(** C1 as stated fails on
    <<
    async def outer():
        async def inner():
            open("f")
    >>
    The file has one blocking call; analysis returns two findings for it,
    the first attributed to [outer] and the second to [inner], and both
    passes apply the rules to the call. *)
Lemma nested_async_reported_twice :
  parses_to Samples.sample_rt "nested.py" Samples.nested_tree /\
  findings_of Samples.sample_rt "nested.py" =
    [mkFinding "nested.py" 3 8 "outer" ASYNC006;
     mkFinding "nested.py" 3 8 "inner" ASYNC006] /\
  length (findings_of Samples.sample_rt "nested.py") <> 1%nat /\
  filter (fun n => is_call n = true) (subtree Samples.nested_tree)
    = [Samples.open_call 36 3 8] /\
  filter (fun n => is_call n = true) (scanned_nodes Samples.nested_outer)
    = [Samples.open_call 36 3 8] /\
  filter (fun n => is_call n = true) (scanned_nodes Samples.nested_inner)
    = [Samples.open_call 36 3 8].
Proof.
  split; [sample_parses|]. split; [by vm_compute|].
  split; [by vm_compute|]. split_and!; by vm_compute.
Qed.

(** ** Files without asynchronous functions *)

(** C2: a file whose tree holds no [async def] yields no finding, whatever
    calls its synchronous code makes: [check_file] returns the empty list
    and prints nothing. *)
Theorem sync_only_file_no_findings rt path tree :
  parses_to rt path tree ->
  async_defs tree = [] ->
  findings_of rt path = [] /\
  forall c, check_file rt path c = (Ok [], c).
Proof.
  intros Hp Hnone.
  assert (scan_tree RULES path tree = []) as Hscan.
  { unfold scan_tree. apply Permutation_nil_r.
    rewrite (collect_async_funcs_perm tree), Hnone. done. }
  split.
  - by rewrite (findings_of_parsed _ _ _ Hp).
  - intros c. by rewrite (check_file_parsed _ _ tree), Hscan.
Qed.

Lemma sync_only_file_no_findings_witness :
  (exists n, n ∈ subtree Samples.sync_tree /\ matcher ASYNC005 n = true) /\
  findings_of Samples.sample_rt "sync.py" = [] /\
  forall c, check_file Samples.sample_rt "sync.py" c = (Ok [], c).
Proof.
  split.
  - exists (Samples.sleep_call 64 2 4). split; [|reflexivity].
    simpl. elem_of_concrete.
  - apply (sync_only_file_no_findings Samples.sample_rt "sync.py" Samples.sync_tree).
    + sample_parses.
    + reflexivity.
Defined.

(** ** Nested synchronous definitions *)

(** C3: every finding comes from a node of an asynchronous function's
    subtree that is not inside a synchronous function or class nested in
    that function; the pass over a function applies no rule to a node inside
    such a definition.  On
    <<
    async def outer():
        def helper():
            open("f")
        helper()
    >>
    analysis returns no finding. *)
Theorem sync_context_never_reported :
  (forall rt path tree x,
     parses_to rt path tree -> x ∈ findings_of rt path ->
     exists f n r,
       f ∈ async_defs tree /\ n ∈ subtree f /\ (n ∉ sync_nodes f) /\
       r ∈ RULES /\ matcher r n = true /\ x = finding_for path f n r) /\
  (forall f n, n ∈ sync_nodes f ->
     py_id n ∈ _nodes_inside_sync_context f /\ n ∉ scanned_nodes f) /\
  (parses_to Samples.sample_rt "helper.py" Samples.helper_tree /\
   Samples.open_call 16 3 8 ∈ subtree Samples.helper_tree /\
   matcher ASYNC006 (Samples.open_call 16 3 8) = true /\
   findings_of Samples.sample_rt "helper.py" = []).
Proof.
  split_and!.
  - intros rt path tree x Hp Hx. rewrite (findings_of_parsed _ _ _ Hp) in Hx.
    apply elem_of_scan_tree in Hx as (f & n & r & Hf & Ha & Hn & Hr & Hm & ->).
    apply scanned_nodes_outside in Hn as [Hn Hout].
    exists f, n, r. split_and!; try done. by apply list_elem_of_filter.
  - intros f n Hn. split.
    + apply elem_of_nodes_inside_sync_context. eauto.
    + by intros [_ ?]%scanned_nodes_outside.
  - sample_parses.
  - simpl. elem_of_concrete.
  - reflexivity.
  - by vm_compute.
Qed.

Lemma sync_context_never_reported_witness :
  exists f n r,
    f ∈ async_defs Samples.read_tree /\ n ∈ subtree f /\ (n ∉ sync_nodes f) /\
    r ∈ RULES /\ matcher r n = true /\
    mkFinding "read.py" 2 4 "load" ASYNC009 = finding_for "read.py" f n r.
Proof.
  apply (proj1 sync_context_never_reported
           Samples.sample_rt "read.py" Samples.read_tree).
  - sample_parses.
  - apply list_elem_of_here.
Defined.

(** ** Position and attribution *)

(** C5: a finding carries the line and column of the node that a rule of
    the registry accepted, and the name of an [async def] of the file whose
    subtree holds that node (the node is a call, so it lies strictly inside
    the definition). *)
Theorem finding_position_and_function rt path x :
  x ∈ findings_of rt path ->
  exists tree f n,
    parses_to rt path tree /\
    f ∈ subtree tree /\ is_async_def f = true /\
    n ∈ subtree f /\ n <> f /\
    rule x ∈ RULES /\ matcher (rule x) n = true /\
    file x = path /\ line x = lineno n /\ col x = col_offset n /\
    async_func x = name_of f.
Proof.
  intros Hx. destruct (file_cases rt path) as [Hr|[Hp|[[e Hc]|[tree Ht]]]].
  - rewrite findings_of_read_fails in Hx by done. by apply elem_of_nil in Hx.
  - rewrite findings_of_parse_fails in Hx by done. by apply elem_of_nil in Hx.
  - rewrite (findings_of_parse_crashes _ _ e) in Hx by done.
    by apply elem_of_nil in Hx.
  - rewrite (findings_of_parsed _ _ _ Ht) in Hx.
    apply elem_of_scan_tree in Hx as (f & n & r & Hf & Ha & Hn & Hr & Hm & ->).
    apply scanned_nodes_outside in Hn as [Hn _].
    exists tree, f, n. split_and!; try done.
    intros ->. apply matcher_call in Hm; [|done]. by destruct f.
Qed.

Lemma finding_position_and_function_witness :
  exists tree f n,
    parses_to Samples.sample_rt "read.py" tree /\
    f ∈ subtree tree /\ is_async_def f = true /\
    n ∈ subtree f /\ n <> f /\
    ASYNC009 ∈ RULES /\ matcher ASYNC009 n = true /\
    "read.py" = "read.py" /\ 2 = lineno n /\ 4 = col_offset n /\
    "load" = name_of f.
Proof.
  apply (finding_position_and_function Samples.sample_rt "read.py"
           (mkFinding "read.py" 2 4 "load" ASYNC009)).
  apply list_elem_of_here.
Defined.

(** ** Counting findings *)

Lemma filter_matcher_length rules n :
  length (filter (fun r => matcher r n = true) rules) =
  list_sum (map (fun r => if matcher r n then 1%nat else 0%nat) rules).
Proof.
  induction rules as [|r rules IH]; [done|].
  rewrite filter_cons. simpl. destruct (matcher r n); case_decide; try done.
  simpl. by rewrite IH.
Qed.

(** No two rules of [RULES] accept the same node. *)
Lemma RULES_exclusive n :
  (length (filter (fun r => matcher r n = true) RULES) <= 1)%nat.
Proof.
  rewrite filter_matcher_length.
  destruct n as [a func args| | | | | |]; simpl; try lia.
  destruct func as [|fa i c|fa v s c| | | |]; simpl; try lia.
  - destruct (String.eqb i "open"); simpl; lia.
  - destruct (decide (s ∈ ["get"; "post"; "put"; "delete"; "sleep"; "run";
                           "call"; "read"; "write"; "readlines"])) as [Hs|Hs].
    + repeat (apply elem_of_cons in Hs as [->|Hs]);
        try (by apply elem_of_nil in Hs);
        destruct v as [|va i vc| | | | |]; simpl; try lia;
        rewrite ?andb_false_r, ?andb_true_r; simpl;
        repeat match goal with
               | |- context [String.eqb i ?t] => destruct (String.eqb i t)
               end; simpl; lia.
    + assert (forall t, t ∈ ["get"; "post"; "put"; "delete"; "sleep"; "run";
                             "call"; "read"; "write"; "readlines"] ->
                        String.eqb s t = false) as Hne.
      { intros t Ht. apply String.eqb_neq. by intros ->. }
      rewrite (bool_decide_eq_false_2 (s ∈ ["read"; "write"; "readlines"]))
        by set_solver.
      destruct v as [|va i vc| | | | |]; simpl; try lia.
      rewrite !Hne by elem_of_concrete.
      rewrite !andb_false_r. simpl. lia.
Qed.

(** C4, as the code has it: the findings of a file are as many as the
    (asynchronous function, node, rule) triples in which the node is on the
    function's own level and the rule accepts it, so a node on the own level
    of several nested asynchronous functions counts once for each; when the
    pass over a function reaches a node that two rules of the registry
    accept, it emits exactly two findings, in registry order, both with the
    node's line and column. *)
Theorem findings_count_triples rt path tree :
  parses_to rt path tree ->
  well_identified tree ->
  length (findings_of rt path) = length (matched_triples RULES tree) /\
  forall rules f n r1 r2,
    filter (fun r => matcher r n = true) rules = [r1; r2] ->
    findings_at rules path f n =
      [mkFinding path (lineno n) (col_offset n) (name_of f) r1;
       mkFinding path (lineno n) (col_offset n) (name_of f) r2].
Proof.
  intros Hp Hw. split.
  - rewrite (findings_of_parsed _ _ _ Hp).
    rewrite (scan_tree_perm RULES path tree matcher_call Hw).
    apply expected_tree_length.
  - intros rules f n r1 r2 Hm. by rewrite findings_at_filter, Hm.
Qed.

Lemma findings_count_triples_witness :
  length (findings_of Samples.sample_rt "nested.py")
    = length (matched_triples RULES Samples.nested_tree) /\
  findings_at Samples.two_rules "nested.py" Samples.nested_inner
              (Samples.open_call 36 3 8) =
    [mkFinding "nested.py" 3 8 "inner" ASYNC006;
     mkFinding "nested.py" 3 8 "inner" Samples.OPEN_ANY].
Proof.
  destruct (findings_count_triples Samples.sample_rt "nested.py" Samples.nested_tree)
    as [Hlen Htwo].
  - sample_parses.
  - apply (bool_decide_unpack (calls_distinct _)). vm_compute. exact I.
  - split; [exact Hlen|].
    apply (Htwo Samples.two_rules Samples.nested_inner (Samples.open_call 36 3 8)
                ASYNC006 Samples.OPEN_ANY).
    reflexivity.
Defined.

(** C4 as stated fails on the nested file: one node is scanned, one rule
    accepts it, and analysis returns two findings. *)
Lemma findings_exceed_matched_pairs :
  parses_to Samples.sample_rt "nested.py" Samples.nested_tree /\
  reported_nodes Samples.nested_tree ≡ₚ subtree Samples.nested_outer /\
  matched_pairs RULES Samples.nested_tree = [(Samples.open_call 36 3 8, ASYNC006)] /\
  length (findings_of Samples.sample_rt "nested.py") = 2%nat /\
  length (findings_of Samples.sample_rt "nested.py")
    <> length (matched_pairs RULES Samples.nested_tree).
Proof.
  split; [sample_parses|].
  assert (reported_nodes Samples.nested_tree = walk Samples.nested_outer) as Hrep
    by (by vm_compute).
  split_and!.
  - rewrite Hrep. apply walk_perm.
  - by vm_compute.
  - by vm_compute.
  - by vm_compute.
Qed.

(** ** Errors and the exit status *)












(** ** The report *)





(** ** The file read/write rule *)

(** C9: the rule [ASYNC009] of the registry accepts every call whose callee
    is an attribute access named [read], [write] or [readlines], whatever
    the expression the attribute is taken from. *)
Theorem file_rw_ignores_receiver a fa receiver attr ctx args :
  attr ∈ ["read"; "write"; "readlines"] ->
  ASYNC009 ∈ RULES /\
  rule_id ASYNC009 = "ASYNC009" /\
  matcher ASYNC009 (Call a (Attribute fa receiver attr ctx) args) = true /\
  forall receiver',
    matcher ASYNC009 (Call a (Attribute fa receiver' attr ctx) args) =
    matcher ASYNC009 (Call a (Attribute fa receiver attr ctx) args).
Proof.
  intros Hattr. split_and!.
  - unfold RULES. elem_of_concrete.
  - done.
  - simpl. by apply bool_decide_eq_true_2.
  - done.
Qed.

Lemma file_rw_ignores_receiver_witness :
  ASYNC009 ∈ RULES /\
  rule_id ASYNC009 = "ASYNC009" /\
  matcher ASYNC009
    (Call (Attrs 90 1 0)
          (Attribute (Attrs 91 1 0) (Samples.open_call 92 1 0) "write" Samples.Load)
          [Samples.Constant 95 1 20]) = true /\
  forall receiver',
    matcher ASYNC009
      (Call (Attrs 90 1 0) (Attribute (Attrs 91 1 0) receiver' "write" Samples.Load)
            [Samples.Constant 95 1 20]) =
    matcher ASYNC009
      (Call (Attrs 90 1 0)
            (Attribute (Attrs 91 1 0) (Samples.open_call 92 1 0) "write" Samples.Load)
            [Samples.Constant 95 1 20]).
Proof.
  apply (file_rw_ignores_receiver (Attrs 90 1 0) (Attrs 91 1 0)
           (Samples.open_call 92 1 0) "write" Samples.Load
           [Samples.Constant 95 1 20]).
  apply list_elem_of_further, list_elem_of_here.
Defined.

(** ** Decoding *)

(** C10: reading the text of a file raises [OSError] when the file cannot
    be opened or read and returns the decoded text otherwise, whatever the
    bytes: the decoder runs with [errors="replace"] and [UnicodeDecodeError]
    is never raised.  [check_file] skips the file for a read failure in the
    first case only; in the second it parses the decoded text, and what
    follows is up to the parser. *)
Theorem read_skips_only_on_oserror rt path c :
  match read_bytes rt path with
  | inl msg =>
      read_text rt path c = (Raised (OSError msg), c) /\
      check_file rt path c =
        (Ok [], Console (stdout c)
                        (stderr c ++ ["ERROR: Cannot read " +:+ path +:+ ": " +:+ msg]))
  | inr data =>
      exists source,
        decode_utf8 rt Replace data = Some source /\
        read_text rt path c = (Ok source, c) /\
        check_file rt path c =
          match ast_parse rt source path with
          | inl (PSyntaxError msg) =>
              (Ok [], Console (stdout c)
                              (stderr c ++ ["ERROR: Syntax error in " +:+ path
                                            +:+ ": " +:+ msg]))
          | inl err => (Raised (parse_exn err), c)
          | inr tree => (Ok (scan_tree RULES path tree), c)
          end
  end.
Proof.
  destruct (read_bytes rt path) as [msg|data] eqn:Hr.
  - split; [|by apply check_file_read_fails].
    unfold read_text, raise. by rewrite Hr.
  - destruct (decode_replace_total rt data) as [source Hd].
    exists source. split_and!; [done| |].
    + unfold read_text, io_ret. by rewrite Hr, Hd.
    + destruct (ast_parse rt source path) as [err|tree] eqn:Hp.
      * destruct err; [by eapply check_file_parse_fails|..];
          by eapply check_file_parse_raises.
      * apply check_file_parsed. by exists data, source.
Qed.

(** In the sample runtime the file [latin1.py] holds bytes that are not
    UTF-8: strict decoding fails on them, and the file is analysed all the
    same. *)
Example invalid_utf8_is_analysed :
  exists data,
    read_bytes Samples.sample_rt "latin1.py" = inr data /\
    decode_utf8 Samples.sample_rt Strict data = None /\
    check_file Samples.sample_rt "latin1.py" (Console [] [])
      = (Ok [], Console [] []) /\
    parses_to Samples.sample_rt "latin1.py" (Samples.Module_ 80 []).
Proof. eexists. split_and!; [reflexivity..|sample_parses]. Qed.

(** * Further properties of the script *)

(** ** The order of the walk *)

(** X1: [ast.walk] is breadth-first.  The walk of a tree lists its nodes
    level by level, the root first, every level from left to right, and
    [_collect_async_funcs] yields the asynchronous functions in that same
    order. *)
Theorem walk_level_order tree :
  walk tree = flat_map (fun d => level d tree) (seq 0 (size tree)) /\
  _collect_async_funcs tree =
    flat_map (fun d => filter (fun n => is_async_def n = true) (level d tree))
             (seq 0 (size tree)).
Proof.
  assert (walk tree = flat_map (fun d => level d tree) (seq 0 (size tree))) as Hw.
  { unfold walk. rewrite walk_queue_levels by (simpl; lia).
    apply flat_map_ext_elem. intros d _. simpl. by rewrite app_nil_r. }
  split; [done|]. unfold _collect_async_funcs. rewrite Hw.
  apply filter_flat_map.
Qed.

(** ** The console of a run *)








(** ** The summary table *)

Lemma ascii_compare_lt_trans a b c :
  Ascii.compare a b = Lt -> Ascii.compare b c = Lt -> Ascii.compare a c = Lt.
Proof.
  unfold Ascii.compare. rewrite !N.compare_lt_iff. apply N.lt_trans.
Qed.

Lemma string_compare_lt_trans x y z :
  String.compare x y = Lt -> String.compare y z = Lt -> String.compare x z = Lt.
Proof.
  revert y z. induction x as [|a x IH]; intros [|b y] [|c z]; simpl; try done.
  destruct (Ascii.compare a b) eqn:Hab; [|clear IH|done].
  - apply Ascii.compare_eq_iff in Hab as ->.
    destruct (Ascii.compare b c); [apply IH|done..].
  - destruct (Ascii.compare b c) eqn:Hbc; [|intros _ _|done].
    + apply Ascii.compare_eq_iff in Hbc as <-. by rewrite Hab.
    + by rewrite (ascii_compare_lt_trans a b c).
Qed.

Lemma key_lt_trans x y z : key_lt x y -> key_lt y z -> key_lt x z.
Proof. apply string_compare_lt_trans. Qed.

Lemma item_ltb_true x y : x.1 <> y.1 -> item_ltb x y = true -> key_lt x y.
Proof.
  unfold item_ltb, key_lt. destruct (String.compare x.1 y.1) eqn:Hc; try done.
  by apply String.compare_eq_iff in Hc.
Qed.

Lemma item_ltb_false x y : x.1 <> y.1 -> item_ltb x y = false -> key_lt y x.
Proof.
  unfold item_ltb, key_lt. intros Hne Hlt.
  destruct (String.compare x.1 y.1) eqn:Hc; try done.
  - by apply String.compare_eq_iff in Hc.
  - by rewrite String.compare_antisym, Hc.
Qed.

Lemma item_insert_perm x l : item_insert x l ≡ₚ x :: l.
Proof.
  induction l as [|y l IH]; simpl; [done|].
  destruct (item_ltb x y); [done|]. rewrite IH. apply Permutation_swap.
Qed.

Lemma sorted_items_perm l : sorted_items l ≡ₚ l.
Proof.
  unfold sorted_items.
  assert (forall acc, foldl (fun acc x => item_insert x acc) acc l ≡ₚ acc ++ l) as H.
  { induction l as [|x l IH]; intros acc; simpl; [by rewrite app_nil_r|].
    rewrite IH, item_insert_perm. simpl. apply Permutation_middle. }
  by rewrite H.
Qed.

Lemma item_insert_sorted x l :
  StronglySorted key_lt l -> x.1 ∉ l.*1 ->
  StronglySorted key_lt (item_insert x l).
Proof.
  induction 1 as [|y l Hl IH Hy]; intros Hx; simpl.
  - repeat constructor.
  - rewrite fmap_cons, not_elem_of_cons in Hx. destruct Hx as [Hxy Hx].
    destruct (item_ltb x y) eqn:Hlt.
    + apply item_ltb_true in Hlt; [|done].
      constructor; [by constructor|]. constructor; [done|].
      eapply Forall_impl; [exact Hy|]. intros z. by apply key_lt_trans.
    + apply item_ltb_false in Hlt; [|done].
      constructor; [by apply IH|].
      rewrite item_insert_perm. by constructor.
Qed.

Lemma sorted_items_sorted l :
  NoDup l.*1 -> StronglySorted key_lt (sorted_items l).
Proof.
  unfold sorted_items.
  assert (forall acc, StronglySorted key_lt acc -> NoDup (acc ++ l).*1 ->
            StronglySorted key_lt (foldl (fun acc x => item_insert x acc) acc l))
    as H.
  { induction l as [|x l IH]; intros acc Hs Hnd; simpl; [done|].
    rewrite fmap_app, fmap_cons in Hnd.
    apply IH.
    - apply item_insert_sorted; [done|].
      apply NoDup_app in Hnd as (_ & Hdis & _). intros Hin.
      apply (Hdis _ Hin). left.
    - rewrite fmap_app, item_insert_perm, fmap_cons.
      simpl.
      assert (x.1 :: acc.*1 ++ l.*1 ≡ₚ acc.*1 ++ x.1 :: l.*1) as ->
        by apply Permutation_middle.
      done. }
  intros Hnd. apply H; [constructor|done].
Qed.

Lemma counter_add_keys k c :
  (counter_add k c).*1 = if bool_decide (k ∈ c.*1) then c.*1 else c.*1 ++ [k].
Proof.
  induction c as [|[k' n] c IH]; [done|]. simpl counter_add.
  destruct (String.eqb_spec k' k) as [->|Hne]; rewrite !fmap_cons; simpl fst.
  - rewrite bool_decide_eq_true_2; [done|left].
  - rewrite IH. case_bool_decide as Hin.
    + rewrite bool_decide_eq_true_2; [done|by right].
    + rewrite bool_decide_eq_false_2; [done|].
      rewrite not_elem_of_cons. split; [congruence|done].
Qed.

Lemma counter_get_cons k' k0 n c :
  counter_get k' ((k0, n) :: c)
  = ((if bool_decide (k0 = k') then n else 0) + counter_get k' c)%nat.
Proof.
  unfold counter_get. rewrite filter_cons. simpl.
  case_decide; case_bool_decide; done.
Qed.

Lemma counter_add_get k c k' :
  counter_get k' (counter_add k c)
  = (counter_get k' c + if bool_decide (k = k') then 1 else 0)%nat.
Proof.
  induction c as [|[k0 n] c IH]; simpl counter_add.
  - rewrite counter_get_cons. unfold counter_get. simpl. lia.
  - destruct (String.eqb_spec k0 k) as [->|Hne]; rewrite !counter_get_cons.
    + case_bool_decide; lia.
    + rewrite IH. lia.
Qed.

Lemma counter_add_total k c :
  list_sum (counter_add k c).*2 = S (list_sum c.*2).
Proof.
  induction c as [|[k' n] c IH]; [done|]. simpl counter_add.
  destruct (String.eqb k' k); rewrite !fmap_cons; simpl; [done|].
  rewrite IH. lia.
Qed.

Lemma Counter_snoc keys k : Counter (keys ++ [k]) = counter_add k (Counter keys).
Proof. unfold Counter. by rewrite foldl_app. Qed.

Lemma count_key_snoc k' keys k :
  count_key k' (keys ++ [k])
  = (count_key k' keys + if bool_decide (k = k') then 1 else 0)%nat.
Proof.
  unfold count_key. rewrite filter_app, length_app, filter_cons, filter_nil.
  case_decide; case_bool_decide; done.
Qed.

Lemma Counter_spec keys :
  NoDup (Counter keys).*1 /\
  (forall k, k ∈ (Counter keys).*1 <-> k ∈ keys) /\
  (forall k, counter_get k (Counter keys) = count_key k keys) /\
  list_sum (Counter keys).*2 = length keys.
Proof.
  induction keys as [|k keys (Hnd & Hkeys & Hget & Hsum)] using rev_ind.
  { split_and!; [constructor|done..]. }
  rewrite Counter_snoc. split_and!.
  - rewrite counter_add_keys. case_bool_decide as Hin; [done|].
    apply NoDup_app. split_and!; [done| |apply NoDup_singleton].
    intros x Hx ->%list_elem_of_singleton. done.
  - intros x. rewrite counter_add_keys, elem_of_app, list_elem_of_singleton.
    case_bool_decide as Hin.
    + rewrite Hkeys. split; [tauto|]. intros [?| ->]; [done|by apply Hkeys].
    + rewrite elem_of_app, list_elem_of_singleton, Hkeys. done.
  - intros x. by rewrite counter_add_get, Hget, count_key_snoc.
  - rewrite counter_add_total, Hsum, length_app. simpl. lia.
Qed.

Lemma counter_get_absent k c : k ∉ c.*1 -> counter_get k c = 0%nat.
Proof.
  induction c as [|[k' m] c IH]; [done|].
  rewrite fmap_cons, not_elem_of_cons, counter_get_cons. simpl. intros [Hne Hk].
  rewrite bool_decide_eq_false_2 by done. by rewrite IH.
Qed.

Lemma counter_get_elem k n c :
  NoDup c.*1 -> (k, n) ∈ c -> counter_get k c = n.
Proof.
  induction c as [|[k' m] c IH]; intros Hnd Hin.
  { by apply elem_of_nil in Hin. }
  rewrite fmap_cons in Hnd. apply NoDup_cons in Hnd as [Hk' Hnd].
  simpl in Hk'. rewrite counter_get_cons.
  apply elem_of_cons in Hin as [[= <- <-]|Hin].
  - rewrite bool_decide_eq_true_2 by done.
    rewrite counter_get_absent by done. lia.
  - rewrite bool_decide_eq_false_2.
    + by rewrite IH.
    + intros ->. apply Hk'. by apply (list_elem_of_fmap_2 fst) in Hin.
Qed.

Lemma list_sum_perm (l l' : list nat) : l ≡ₚ l' -> list_sum l = list_sum l'.
Proof. induction 1; simpl; lia. Qed.

(** The table [sorted(Counter(keys).items())]. *)
Lemma tally_spec keys :
  StronglySorted key_lt (sorted_items (Counter keys)) /\
  (forall k n, (k, n) ∈ sorted_items (Counter keys) <->
               k ∈ keys /\ n = count_key k keys) /\
  list_sum (sorted_items (Counter keys)).*2 = length keys.
Proof.
  destruct (Counter_spec keys) as (Hnd & Hkeys & Hget & Hsum).
  split_and!.
  - by apply sorted_items_sorted.
  - intros k n. rewrite sorted_items_perm. split.
    + intros Hin. split.
      * apply Hkeys. by apply (list_elem_of_fmap_2 fst) in Hin.
      * by rewrite <- Hget, (counter_get_elem k n).
    + intros [Hk ->]. apply Hkeys, list_elem_of_fmap in Hk as ([k' m] & -> & Hin).
      simpl. by rewrite <- Hget, (counter_get_elem k' m).
  - rewrite <- Hsum. apply list_sum_perm. by rewrite sorted_items_perm.
Qed.

Lemma rule_description_registry r :
  r ∈ RULES -> rule_description (rule_id r) = description r.
Proof.
  unfold RULES. intros Hr.
  repeat (apply elem_of_cons in Hr as [->|Hr]); try reflexivity.
  by apply elem_of_nil in Hr.
Qed.

Lemma flat_map_singleton {A B} (f : A -> B) (l : list A) :
  flat_map (fun x => [f x]) l = map f l.
Proof. induction l as [|x l IH]; simpl; [done|]. by rewrite IH. Qed.

Lemma print_summary_rows all_findings :
  all_findings <> [] ->
  (forall x, x ∈ all_findings -> rule x ∈ RULES) ->
  prints (print_summary all_findings)
    ([NL +:+ "--- Summary ---";
      "Total issues: " +:+ pretty (length all_findings);
      NL +:+ "By rule:"]
     ++ map rule_row
            (sorted_items (Counter (map (fun f => rule_id (rule f)) all_findings)))
     ++ [NL +:+ "By file:"]
     ++ map file_row (sorted_items (Counter (map file all_findings)))).
Proof.
  intros Hne Hrules. destruct all_findings as [|f0 fs]; [done|].
  unfold print_summary. set (all_findings := f0 :: fs) in *.
  apply (prints_seq _ _ [_]); [apply prints_print|].
  apply (prints_seq _ _ [_]); [apply prints_print|].
  apply (prints_seq _ _ [_]); [apply prints_print|].
  apply prints_seq; [|apply (prints_seq _ _ [_]); [apply prints_print|]].
  - rewrite <- flat_map_singleton.
    apply (prints_for_each _ _ (fun item => [rule_row item])).
    intros item Hitem. apply sorted_items_elem in Hitem.
    assert (item.1 ∈ (Counter (map (fun f => rule_id (rule f)) all_findings)).*1)
      as Hkey by (by apply list_elem_of_fmap_2).
    apply Counter_key in Hkey. apply list_elem_of_In, in_map_iff in Hkey.
    destruct Hkey as (f & Hid & Hf%list_elem_of_In).
    assert (rule f ∈ filter (fun r => rule_id r = item.1) RULES) as Hin.
    { apply list_elem_of_filter. split; [done|by apply Hrules]. }
    unfold rule_row, rule_description.
    destruct (filter (fun r => rule_id r = item.1) RULES) as [|r rs];
      [by apply elem_of_nil in Hin|].
    simpl. rewrite <- (app_nil_l [_]).
    apply (prints_bind _ _ r); [|apply prints_print].
    intros c. unfold io_ret. by rewrite app_nil_r, console_eta.
  - rewrite <- flat_map_singleton.
    apply (prints_for_each _ _ (fun item => [file_row item])).
    intros item _. apply prints_print.
Qed.

Lemma count_key_map {A} (g : A -> string) (k : string) (l : list A) :
  count_key k (map g l) = length (filter (fun x => g x = k) l).
Proof.
  unfold count_key. induction l as [|x l IH]; [done|].
  simpl. rewrite !filter_cons. repeat case_decide; simpl; congruence.
Qed.

Lemma elem_of_map_iff {A} (g : A -> string) (k : string) (l : list A) :
  k ∈ map g l <-> exists x, x ∈ l /\ g x = k.
Proof.
  rewrite list_elem_of_In, in_map_iff. setoid_rewrite list_elem_of_In.
  split; intros (x & ? & ?); eauto.
Qed.

(** X5: the summary table.  For a non-empty list of findings of registry
    rules, [print_summary] prints the heading, the total (the number of
    findings), then one row per rule identifier among the findings and one
    row per file among the findings; in both groups the keys are in
    strictly increasing order (so each appears once), every row carries
    the number of findings with its key, the counts of a group add up to
    the total, and the description on a rule's row is that of the rule the
    findings carry. *)
Theorem summary_table all_findings :
  all_findings <> [] ->
  (forall x, x ∈ all_findings -> rule x ∈ RULES) ->
  exists by_rule by_file,
    summary_lines all_findings =
      [NL +:+ "--- Summary ---";
       "Total issues: " +:+ pretty (length all_findings);
       NL +:+ "By rule:"]
      ++ map rule_row by_rule ++ [NL +:+ "By file:"] ++ map file_row by_file /\
    StronglySorted key_lt by_rule /\
    StronglySorted key_lt by_file /\
    (forall k n,
       (k, n) ∈ by_rule <->
       (exists x, x ∈ all_findings /\ rule_id (rule x) = k) /\
       n = length (filter (fun x => rule_id (rule x) = k) all_findings)) /\
    (forall p n,
       (p, n) ∈ by_file <->
       (exists x, x ∈ all_findings /\ file x = p) /\
       n = length (filter (fun x => file x = p) all_findings)) /\
    list_sum by_rule.*2 = length all_findings /\
    list_sum by_file.*2 = length all_findings /\
    (forall x, x ∈ all_findings ->
       rule_description (rule_id (rule x)) = description (rule x)).
Proof.
  intros Hne Hrules.
  exists (sorted_items (Counter (map (fun f => rule_id (rule f)) all_findings))),
         (sorted_items (Counter (map file all_findings))).
  destruct (tally_spec (map (fun f => rule_id (rule f)) all_findings))
    as (Hs1 & Hin1 & Hsum1).
  destruct (tally_spec (map file all_findings)) as (Hs2 & Hin2 & Hsum2).
  split_and!; try done.
  - unfold summary_lines. by rewrite (print_summary_rows _ Hne Hrules).
  - intros k n. by rewrite Hin1, elem_of_map_iff, count_key_map.
  - intros p n. by rewrite Hin2, elem_of_map_iff, count_key_map.
  - by rewrite Hsum1, length_map.
  - by rewrite Hsum2, length_map.
  - intros x Hx. by apply rule_description_registry, Hrules.
Qed.

Lemma summary_table_witness :
  exists by_rule by_file,
    summary_lines MoreSamples.some_findings =
      [NL +:+ "--- Summary ---";
       "Total issues: " +:+ pretty (length MoreSamples.some_findings);
       NL +:+ "By rule:"]
      ++ map rule_row by_rule ++ [NL +:+ "By file:"] ++ map file_row by_file /\
    StronglySorted key_lt by_rule /\
    StronglySorted key_lt by_file /\
    (forall k n,
       (k, n) ∈ by_rule <->
       (exists x, x ∈ MoreSamples.some_findings /\ rule_id (rule x) = k) /\
       n = length (filter (fun x => rule_id (rule x) = k)
                          MoreSamples.some_findings)) /\
    (forall p n,
       (p, n) ∈ by_file <->
       (exists x, x ∈ MoreSamples.some_findings /\ file x = p) /\
       n = length (filter (fun x => file x = p) MoreSamples.some_findings)) /\
    list_sum by_rule.*2 = length MoreSamples.some_findings /\
    list_sum by_file.*2 = length MoreSamples.some_findings /\
    (forall x, x ∈ MoreSamples.some_findings ->
       rule_description (rule_id (rule x)) = description (rule x)).
Proof.
  apply (summary_table MoreSamples.some_findings).
  - discriminate.
  - intros x Hx. unfold MoreSamples.some_findings in Hx. unfold RULES.
    repeat (apply elem_of_cons in Hx as [->|Hx]); simpl; elem_of_concrete.
    by apply elem_of_nil in Hx.
Defined.

(** The table of the sample findings. *)
Example summary_table_sample :
  summary_lines MoreSamples.some_findings =
    [NL +:+ "--- Summary ---"; "Total issues: 3"; NL +:+ "By rule:";
     "  ASYNC001: 1x  (requests.get() blocks the event loop)";
     "  ASYNC005: 2x  (time.sleep() blocks the event loop)";
     NL +:+ "By file:"; "    1  a.py"; "    2  b.py"].
Proof. reflexivity. Qed.

(** ** Enumeration, exclusion and the rules *)

(** X6: [_collect_async_funcs] yields every [async def] node of the tree
    exactly once, wherever it is nested (in a class, in a synchronous or an
    asynchronous function), and nothing else. *)
Theorem collect_async_funcs_complete tree :
  _collect_async_funcs tree ≡ₚ
    filter (fun n => is_async_def n = true) (subtree tree) /\
  (forall f, f ∈ _collect_async_funcs tree <->
             f ∈ subtree tree /\ is_async_def f = true) /\
  length (walk tree) = size tree.
Proof.
  split_and!.
  - apply collect_async_funcs_perm.
  - apply elem_of_collect_async_funcs.
  - apply walk_length.
Qed.

(** X7: the exclusion set of a function holds exactly the identities of
    the nodes in the subtrees of the synchronous function and class
    definitions of its subtree, the definition nodes included; when the
    function has no such definition the set is empty and the pass applies
    the rules to every node of the walk. *)
Theorem exclusion_set_exact f :
  (forall i,
     i ∈ _nodes_inside_sync_context f <->
     exists d m, d ∈ subtree f /\ is_sync_scope d = true /\
                 m ∈ subtree d /\ py_id m = i) /\
  ((forall d, d ∈ subtree f -> is_sync_scope d = false) ->
   _nodes_inside_sync_context f = ∅ /\ scanned_nodes f = walk f).
Proof.
  assert (forall i,
     i ∈ _nodes_inside_sync_context f <->
     exists d m, d ∈ subtree f /\ is_sync_scope d = true /\
                 m ∈ subtree d /\ py_id m = i) as Hset.
  { intros i. rewrite elem_of_nodes_inside_sync_context. split.
    - intros (m & (d & Hd & Hs & Hm)%elem_of_sync_nodes & Hi). by exists d, m.
    - intros (d & m & Hd & Hs & Hm & Hi). exists m. split; [|done].
      apply elem_of_sync_nodes. by exists d. }
  split; [done|]. intros Hnone.
  assert (_nodes_inside_sync_context f = ∅) as Hempty.
  { apply set_eq. intros i. rewrite Hset. split; [|set_solver].
    intros (d & m & Hd & Hs & _). rewrite (Hnone d Hd) in Hs. done. }
  split; [done|]. unfold scanned_nodes. rewrite Hempty.
  induction (walk f) as [|n l IH]; [done|].
  rewrite filter_cons, decide_True by set_solver. by rewrite IH.
Qed.

Lemma exclusion_set_exact_witness :
  _nodes_inside_sync_context Samples.nested_outer = ∅ /\
  scanned_nodes Samples.nested_outer = walk Samples.nested_outer.
Proof.
  apply (proj2 (exclusion_set_exact Samples.nested_outer)).
  intros d Hd. simpl in Hd.
  repeat (apply elem_of_cons in Hd as [->|Hd]); try reflexivity.
  by apply elem_of_nil in Hd.
Defined.




Lemma flat_map_length_le {A B} (f : A -> list B) (w : A -> nat) (l : list A) :
  (forall x, x ∈ l -> (length (f x) <= w x)%nat) ->
  (length (flat_map f l) <= list_sum (map w l))%nat.
Proof.
  induction l as [|x l IH]; intros H; simpl; [done|].
  rewrite length_app. pose proof (H x (list_elem_of_here _ _)).
  assert (length (flat_map f l) <= list_sum (map w l))%nat; [|lia].
  apply IH. intros y Hy. apply H. by right.
Qed.

(** X9: with the registry [RULES] a pass reports a node at most once, and
    only if it is a call: the findings of a pass are at most as many as the
    call nodes it applies the rules to. *)
Theorem one_finding_per_call path f :
  (forall n, (length (findings_at RULES path f n) <= 1)%nat) /\
  (forall n, is_call n = false -> findings_at RULES path f n = []) /\
  (length (scan_function RULES path f)
   <= length (filter (fun n => is_call n = true) (scanned_nodes f)))%nat.
Proof.
  assert (forall n, (length (findings_at RULES path f n) <= 1)%nat) as Hone.
  { intros n. rewrite findings_at_filter, length_fmap. apply RULES_exclusive. }
  split_and!; [done|intros n; apply findings_at_not_call, matcher_call|].
  rewrite scan_function_scanned.
  etrans; [apply (flat_map_length_le _ (fun n => if is_call n then 1 else 0)%nat)|].
  - intros n _. destruct (is_call n) eqn:Hc; [apply Hone|].
    by rewrite findings_at_not_call by (done || apply matcher_call).
  - induction (scanned_nodes f) as [|n l IH]; [done|].
    rewrite filter_cons. simpl. destruct (is_call n); case_decide; simpl; try done; lia.
Qed.

(** X10: what the registry can flag.  A node accepted by a rule of [RULES]
    is a call whose callee is the bare name [open] (rule ASYNC006), or an
    attribute of a bare name forming one of the seven dotted names of the
    registry (the rule listed with it), or any attribute named [read],
    [write] or [readlines] (rule ASYNC009); nothing else is accepted: no
    aliased import, no call through a longer dotted path. *)
Theorem accepted_calls r n :
  r ∈ RULES -> matcher r n = true ->
  exists a func args,
    n = Call a func args /\
    ((exists fa c, func = Name fa "open" c /\ r = ASYNC006) \/
     (exists fa va vc c i s,
        func = Attribute fa (Name va i vc) s c /\ (i, s, r) ∈ dotted_rules) \/
     (exists fa v s c,
        func = Attribute fa v s c /\ s ∈ ["read"; "write"; "readlines"] /\
        r = ASYNC009)).
Proof.
  intros Hr Hm. destruct n as [a func args| | | | | |];
    try (apply matcher_call in Hm; [done|done]).
  exists a, func, args. split; [done|]. unfold RULES in Hr.
  repeat (apply elem_of_cons in Hr as [->|Hr]); try (by apply elem_of_nil in Hr);
    simpl in Hm;
    try (destruct func as [|fa i c|fa v s c| | | |]; try done;
         destruct v as [|va i vc| | | | |]; try done;
         apply andb_prop in Hm as [->%String.eqb_eq ->%String.eqb_eq];
         right; left; exists fa, va, vc, c; eexists _, _; split; [done|];
         unfold dotted_rules; elem_of_concrete).
  - destruct func as [|fa i c| | | | |]; try done.
    apply String.eqb_eq in Hm as ->. left. by exists fa, c.
  - destruct func as [|fa i c|fa v s c| | | |]; try done.
    apply bool_decide_eq_true_1 in Hm. right; right. by exists fa, v, s, c.
Qed.

Lemma accepted_calls_witness :
  exists a func args,
    Samples.sleep_call 46 3 8 = Call a func args /\
    ((exists fa c, func = Name fa "open" c /\ ASYNC005 = ASYNC006) \/
     (exists fa va vc c i s,
        func = Attribute fa (Name va i vc) s c /\ (i, s, ASYNC005) ∈ dotted_rules) \/
     (exists fa v s c,
        func = Attribute fa v s c /\ s ∈ ["read"; "write"; "readlines"] /\
        ASYNC005 = ASYNC009)).
Proof.
  apply (accepted_calls ASYNC005 (Samples.sleep_call 46 3 8)).
  - unfold RULES. elem_of_concrete.
  - reflexivity.
Defined.

(** ** The order of the passes *)






(** ** Paths of a run *)


(** Two lists of paths on which the loops of [main] do the same give the
    same run. *)
Lemma run_same_loops rt ps qs ez sm :
  (forall c, analyse_paths rt ps c = analyse_paths rt qs c) ->
  run rt (mkNamespace ps ez sm) = run rt (mkNamespace qs ez sm).
Proof. intros H. unfold run, main, io_bind. simpl. by rewrite H. Qed.

(** X12: a command-line path that is a file without the suffix [.py] is
    passed over in silence: it is not read, no warning is printed for it,
    and the run prints and exits as if the path had not been given. *)
Theorem non_python_file_ignored rt before p after ez sm :
  is_file rt p = true -> suffix rt p <> ".py" ->
  (forall c, iter_python_files rt p c = (Ok [], c)) /\
  run rt (mkNamespace (before ++ p :: after) ez sm)
    = run rt (mkNamespace (before ++ after) ez sm).
Proof.
  intros Hf Hs.
  assert (String.eqb (suffix rt p) ".py" = false) as Heqb
    by (by apply String.eqb_neq).
  assert (forall c, iter_python_files rt p c = (Ok [], c)) as Hnone.
  { intros c. unfold iter_python_files. by rewrite Hf, Heqb. }
  split; [done|].
  apply run_same_loops. intros c. unfold analyse_paths.
  apply for_fold_skip. intros s c'. unfold io_bind. by rewrite Hnone.
Qed.

Lemma non_python_file_ignored_witness :
  (forall c, iter_python_files
               (mkRuntime (fun _ => true) (fun _ => false) (fun _ => ".txt")
                          (fun _ _ => []) (fun l => l)
                          (fun _ => inl "unused") Samples.sample_decode
                          Samples.sample_decode_total
                          (fun _ _ => inl (PSyntaxError "unused")))
               "notes.txt" c = (Ok [], c)) /\
  run (mkRuntime (fun _ => true) (fun _ => false) (fun _ => ".txt")
                 (fun _ _ => []) (fun l => l)
                 (fun _ => inl "unused") Samples.sample_decode
                 Samples.sample_decode_total
                 (fun _ _ => inl (PSyntaxError "unused")))
      (mkNamespace ([] ++ "notes.txt" :: []) false true)
  = run (mkRuntime (fun _ => true) (fun _ => false) (fun _ => ".txt")
                   (fun _ _ => []) (fun l => l)
                   (fun _ => inl "unused") Samples.sample_decode
                   Samples.sample_decode_total
                   (fun _ _ => inl (PSyntaxError "unused")))
        (mkNamespace ([] ++ []) false true).
Proof.
  apply (non_python_file_ignored
           (mkRuntime (fun _ => true) (fun _ => false) (fun _ => ".txt")
                      (fun _ _ => []) (fun l => l)
                      (fun _ => inl "unused") Samples.sample_decode
                      Samples.sample_decode_total
                      (fun _ _ => inl (PSyntaxError "unused")))
           [] "notes.txt" [] false true).
  - reflexivity.
  - discriminate.
Defined.




